(** * A shallow embedding of cloudSQL's heap table and aggregate operator

    Sources: [src/src/storage/heap_table.cpp] (HeapTable::insert, get,
    remove, tuple_count, Iterator::next), [src/src/storage/storage_manager.cpp]
    (read_page / write_page) and [src/src/executor/operator.cpp]
    (AggregateOperator::open / next). *)

From Stdlib Require Import ZArith List String Ascii Bool Lia Floats.
From Stdlib Require Import Sorted OrdersEx DecimalString RelationClasses Permutation.
Import ListNotations.
Open Scope Z_scope.

(** ** Bytes and strings *)

(** A [std::string] as the list of its bytes. *)
Definition bytes_of_string (s : string) : list Z :=
  map (fun c => Z.of_N (N_of_ascii c)) (list_ascii_of_string s).

Definition string_of_bytes (l : list Z) : string :=
  string_of_list_ascii (map (fun b => ascii_of_N (Z.to_N b)) l).

Definition PIPE : Z := 124.   (* '|' *)
Definition NUL : Z := 0.

(** ** The value layer

    [common::Value] and [executor::Schema] live in headers that are not
    part of src/ ([common/value.hpp], [executor/types.hpp]); the heap table
    and the aggregate operator only use the operations below, so the model
    is generic in them.  [stod] is [std::stod] ([None]: it throws). *)
Class ValueOps (V : Type) := {
  value_to_string : V -> string;
  make_int64 : Z -> V;
  make_float64 : float -> V;
  make_bool : bool -> V;
  make_text : string -> V;
  is_numeric : V -> bool;
  to_float64 : V -> float;
  stod : string -> option float
}.

(** Modelled from the spec: the column types of a schema (section 3,
    "Value ... a tagged union over ..."); [heap_table.cpp] only tells
    INT64, FLOAT64 and BOOL apart from the rest. *)
Inductive col_type :=
  | TYPE_NULL | TYPE_BOOL | TYPE_INT8 | TYPE_INT16 | TYPE_INT32 | TYPE_INT64
  | TYPE_FLOAT32 | TYPE_FLOAT64 | TYPE_DECIMAL | TYPE_CHAR | TYPE_VARCHAR
  | TYPE_TEXT | TYPE_DATE | TYPE_TIME | TYPE_TIMESTAMP | TYPE_JSON | TYPE_BLOB.

(** [std::stoll] (base 10, as [strtoll]): leading white space, an optional
    sign, at least one digit; the digits that follow are read up to the
    first non-digit.  [None]: it throws ([invalid_argument] when no digit
    is read, [out_of_range] outside int64). *)
Definition is_space (c : Z) : bool := (c =? 32) || ((9 <=? c) && (c <=? 13)).
Definition is_digit (c : Z) : bool := (48 <=? c) && (c <=? 57).

Fixpoint skip_spaces (l : list Z) : list Z :=
  match l with
  | c :: r => if is_space c then skip_spaces r else l
  | [] => []
  end.

Fixpoint read_digits (l : list Z) (acc : Z) (n : nat) : Z * nat :=
  match l with
  | c :: r => if is_digit c then read_digits r (acc * 10 + (c - 48)) (S n) else (acc, n)
  | [] => (acc, n)
  end.

Definition stoll (s : string) : option Z :=
  let l := skip_spaces (bytes_of_string s) in
  let '(neg, l') :=
    match l with
    | c :: r => if c =? 45 then (true, r) else if c =? 43 then (false, r) else (false, l)
    | [] => (false, l)
    end in
  let '(v, n) := read_digits l' 0 0 in
  if (n =? 0)%nat then None
  else
    let z := if neg then - v else v in
    if (z <? - 2 ^ 63) || (2 ^ 63 - 1 <? z) then None else Some z.

(** ** Pages and the table file *)

(** Modelled from the spec: [StorageManager::PAGE_SIZE] (section 3,
    "Fixed page size (default 8192 bytes ...)"). *)
Definition PAGE_SIZE : Z := 8192.

(** [sizeof(PageHeader)]: the struct is declared in a header that is not
    in src/; the model only needs it to be a small constant. *)
Class PageLayout := {
  HDR : Z;
  HDR_range : 0 <= HDR <= 4096
}.

Definition uint16 (z : Z) : Z := z mod 65536.

(** A page buffer: the two [PageHeader] fields and the bytes of the
    buffer (the slot array starts at offset [HDR]; tuple bodies are copied
    at [free_space_offset]). *)
Record page := mkPage {
  free_space_offset : Z;
  num_slots : Z;
  bytes : Z -> Z
}.

Definition zero_mem : Z -> Z := fun _ => 0.
Definition zero_page : page := mkPage 0 0 zero_mem.

(** The table's [.heap] file: page number to page.  [StorageManager::read_page]
    zero-fills pages past the end of the file and reports success. *)
Definition store := Z -> page.
Definition empty_store : store := fun _ => zero_page.

Definition read_page (s : store) (p : Z) : option page := Some (s p).
Definition write_page (s : store) (p : Z) (pg : page) : store :=
  fun q => if Z.eqb q p then pg else s q.

Definition upd (m : Z -> Z) (a v : Z) : Z -> Z :=
  fun x => if Z.eqb x a then v else m x.

(** [std::memcpy(buffer + a, l, length l)]. *)
Fixpoint write_bytes (m : Z -> Z) (a : Z) (l : list Z) : Z -> Z :=
  match l with
  | [] => m
  | b :: r => write_bytes (upd m a b) (a + 1) r
  end.

(** A [uint16_t] stored at byte offset [a] (little endian). *)
Definition write_u16 (m : Z -> Z) (a v : Z) : Z -> Z :=
  upd (upd m a (v mod 256)) (a + 1) ((v / 256) mod 256).
Definition read_u16 (m : Z -> Z) (a : Z) : Z := m a + 256 * m (a + 1).

(** [std::string s(buffer + a)]: the bytes up to the first NUL, bounded
    by the end of the buffer. *)
Fixpoint read_cstr (m : Z -> Z) (a : Z) (fuel : nat) : list Z :=
  match fuel with
  | O => []
  | S f => if Z.eqb (m a) 0 then [] else m a :: read_cstr m (a + 1) f
  end.

Record tuple_id := mkTid { page_num : Z; slot_num : Z }.

(** [TupleId::is_null]. *)
Definition is_null (t : tuple_id) : bool := (page_num t =? 0) && (slot_num t =? 0).

(** A thrown C++ exception ([std::stoll] / [std::stod] failures escape
    [HeapTable::get] and everything that calls it). *)
Inductive exn (A : Type) :=
  | Ret (a : A)
  | Throw.
Arguments Ret {A} a.
Arguments Throw {A}.

(** [std::getline(ss, item, '|')] on the rest [l] of the stream: fails when
    nothing is left, otherwise yields the bytes up to the next ['|'] (which
    is consumed) or up to the end. *)
Fixpoint split_item (l : list Z) : list Z * list Z :=
  match l with
  | [] => ([], [])
  | c :: r => if c =? PIPE then ([], r) else let '(it, rest) := split_item r in (c :: it, rest)
  end.

Definition getline (l : list Z) : option (list Z * list Z) :=
  match l with
  | [] => None
  | _ => Some (split_item l)
  end.

(** [executor::Schema], seen through the column types [get] reads. *)
Definition schema := list col_type.

Section HeapTable.
Context {V : Type} `{ValueOps V} `{PageLayout}.

(** The body [insert] writes: [val.to_string() + "|"] for every value. *)
Definition serialize (t : list V) : list Z :=
  List.concat (map (fun v => bytes_of_string (value_to_string v) ++ [PIPE]) t).

(** The [switch (col.type())] of [HeapTable::get]. *)
Definition convert (ty : col_type) (item : string) : exn V :=
  match ty with
  | TYPE_INT64 => match stoll item with Some z => Ret (make_int64 z) | None => Throw end
  | TYPE_FLOAT64 => match stod item with Some f => Ret (make_float64 f) | None => Throw end
  | TYPE_BOOL => Ret (make_bool (String.eqb item "TRUE" || String.eqb item "1"))
  | _ => Ret (make_text item)
  end.

(** The [for (i < schema_.column_count())] loop of [get]. *)
Fixpoint parse_values (cols : schema) (ss : list Z) : exn (list V) :=
  match cols with
  | [] => Ret []
  | ty :: cols' =>
    match getline ss with
    | None => Ret []
    | Some (item, rest) =>
      match convert ty (string_of_bytes item) with
      | Throw => Throw
      | Ret v =>
        match parse_values cols' rest with
        | Throw => Throw
        | Ret vs => Ret (v :: vs)
        end
      end
    end
  end.

(** [HeapTable::get]: [Ret None] is [return false]. *)
Definition get (sch : schema) (s : store) (tid : tuple_id) : exn (option (list V)) :=
  match read_page s (page_num tid) with
  | None => Ret None
  | Some pg =>
    if free_space_offset pg =? 0 then Ret None
    else if num_slots pg <=? slot_num tid then Ret None
    else
      let off := read_u16 (bytes pg) (HDR + 2 * slot_num tid) in
      if off =? 0 then Ret None
      else
        match parse_values sch (read_cstr (bytes pg) off (Z.to_nat (PAGE_SIZE - off))) with
        | Throw => Throw
        | Ret vs => Ret (Some vs)
        end
  end.

Definition init_header (pg : page) : page := mkPage (HDR + 128) 0 (bytes pg).

(** The [while (true)] loop of [HeapTable::insert], from page [pn]; the
    C++ loop does not terminate when no page takes the tuple, the model
    gives up ([None]) when [fuel] runs out. *)
Fixpoint insert_loop (fuel : nat) (s : store) (pn : Z) (data : list Z)
  : option (tuple_id * store) :=
  match fuel with
  | O => None
  | S f =>
    let '(s1, buf) :=
      match read_page s pn with
      | Some pg => (s, pg)
      | None => let pg := init_header zero_page in (write_page s pn pg, pg)
      end in
    let buf := if free_space_offset buf =? 0 then init_header buf else buf in
    let required := uint16 (Z.of_nat (List.length data) + 1) in
    let slot_array_end := uint16 (HDR + (num_slots buf + 1) * 2) in
    if (free_space_offset buf + required <? PAGE_SIZE)
       && (slot_array_end <? free_space_offset buf) then
      let off := free_space_offset buf in
      let m1 := write_bytes (bytes buf) off (data ++ [NUL]) in
      let m2 := write_u16 m1 (HDR + 2 * num_slots buf) off in
      let buf' := mkPage (uint16 (off + required)) (uint16 (num_slots buf + 1)) m2 in
      Some (mkTid pn (num_slots buf), write_page s1 pn buf')
    else insert_loop f s1 (pn + 1) data
  end.

(** [HeapTable::insert]. *)
Definition insert (fuel : nat) (s : store) (t : list V) : option (tuple_id * store) :=
  insert_loop fuel s 0 (serialize t).

End HeapTable.

Section HeapOps.
Context `{PageLayout}.

(** [HeapTable::remove]: the slot becomes the tombstone 0. *)
Definition remove (s : store) (tid : tuple_id) : bool * store :=
  match read_page s (page_num tid) with
  | None => (false, s)
  | Some pg =>
    if free_space_offset pg =? 0 then (false, s)
    else if num_slots pg <=? slot_num tid then (false, s)
    else
      let m := write_u16 (bytes pg) (HDR + 2 * slot_num tid) 0 in
      (true, write_page s (page_num tid) (mkPage (free_space_offset pg) (num_slots pg) m))
  end.

(** [HeapTable::create]: page 0 is written zeroed with an initialised header. *)
Definition create (s : store) : store := write_page s 0 (init_header zero_page).

(** The [for (i < header->num_slots)] loop of [tuple_count]. *)
Definition live_slots (pg : page) : Z :=
  Z.of_nat (List.length (filter (fun j => negb (read_u16 (bytes pg) (HDR + 2 * Z.of_nat j) =? 0))
                           (seq 0 (Z.to_nat (num_slots pg))))).

(** [HeapTable::tuple_count]. *)
Fixpoint tuple_count_loop (fuel : nat) (s : store) (pn count : Z) : option Z :=
  match fuel with
  | O => None
  | S f =>
    match read_page s pn with
    | None => Some count
    | Some pg =>
      if free_space_offset pg =? 0 then Some count
      else tuple_count_loop f s (pn + 1) (count + live_slots pg)
    end
  end.

Definition tuple_count (fuel : nat) (s : store) : option Z := tuple_count_loop fuel s 0 0.

End HeapOps.

Section Scan.
Context {V : Type} `{ValueOps V} `{PageLayout}.

(** [HeapTable::Iterator]: [current_id_] and [eof_]. *)
Record iterator := mkIter { current_id : tuple_id; eof : bool }.

Definition iter_begin : iterator := mkIter (mkTid 0 0) false.

(** The [while (true)] loop of [Iterator::next]; [None]: out of fuel. *)
Fixpoint next_loop (sch : schema) (fuel : nat) (s : store) (cur : tuple_id)
  : option (exn (option (list V) * iterator)) :=
  match fuel with
  | O => None
  | S f =>
    match get sch s cur with
    | Throw => Some Throw
    | Ret (Some t) =>
      Some (Ret (Some t, mkIter (mkTid (page_num cur) (uint16 (slot_num cur + 1))) false))
    | Ret None =>
      let more :=
        match read_page s (page_num cur) with
        | Some pg => slot_num cur <? num_slots pg
        | None => false
        end in
      if more then next_loop sch f s (mkTid (page_num cur) (uint16 (slot_num cur + 1)))
      else
        let cur' := mkTid (page_num cur + 1) 0 in
        match read_page s (page_num cur') with
        | None => Some (Ret (None, mkIter cur' true))
        | Some pg =>
          if free_space_offset pg =? 0 then Some (Ret (None, mkIter cur' true))
          else next_loop sch f s cur'
        end
    end
  end.

(** [Iterator::next]: [Some t] is [return true] with [out_tuple = t]. *)
Definition next (sch : schema) (fuel : nat) (s : store) (it : iterator)
  : option (exn (option (list V) * iterator)) :=
  if eof it then Some (Ret (None, it)) else next_loop sch fuel s (current_id it).

(** A full scan: [next] until it returns false, collecting the tuples. *)
Fixpoint scan_loop (sch : schema) (fuel : nat) (s : store) (it : iterator)
  : option (exn (list (list V))) :=
  match fuel with
  | O => None
  | S f =>
    match next sch fuel s it with
    | None => None
    | Some Throw => Some Throw
    | Some (Ret (None, _)) => Some (Ret [])
    | Some (Ret (Some t, it')) =>
      match scan_loop sch f s it' with
      | Some (Ret ts) => Some (Ret (t :: ts))
      | r => r
      end
    end
  end.

Definition scan (sch : schema) (fuel : nat) (s : store) : option (exn (list (list V))) :=
  scan_loop sch fuel s iter_begin.

End Scan.

(** ** AggregateOperator *)

(** [std::map<std::string, GroupState>]: an association list kept in
    increasing key order ([std::string] compares bytes as unsigned char). *)
Module StrMap.
Section StrMap.
Context {A : Type}.

Definition t := list (string * A).

Fixpoint find (k : string) (m : t) : option A :=
  match m with
  | [] => None
  | (k', v) :: r => if String.eqb k k' then Some v else find k r
  end.

(** [m[k] = v]. *)
Fixpoint set (k : string) (v : A) (m : t) : t :=
  match m with
  | [] => [(k, v)]
  | (k', v') :: r =>
    match String_as_OT.compare k k' with
    | Eq => (k', v) :: r
    | Lt => (k, v) :: m
    | Gt => (k', v') :: set k v r
    end
  end.

End StrMap.
End StrMap.

Section Aggregate.
Context {V : Type} `{ValueOps V}.

Inductive AggregateType := Count | Sum | Min | Max | Avg.

(** [AggregateInfo]: the expression, when present, evaluated on the child's
    tuple ([expr->evaluate(&tuple, &child_schema)]). *)
Record AggregateInfo := mkAgg { agg_type : AggregateType; agg_expr : option (list V -> V) }.

(** A GROUP BY expression evaluated on the child's tuple. *)
Definition group_expr := list V -> V.

Record GroupState := mkGroupState {
  group_values : list V;
  counts : list Z;
  sums : list float
}.

Definition empty_state : GroupState := mkGroupState [] [] [].

(** [key += val.to_string() + "|"] over the GROUP BY values. *)
Definition group_key (group_by : list group_expr) (tup : list V) : string :=
  String.concat "" (map (fun e => (value_to_string (e tup) ++ "|")%string) group_by).

(** [if (aggregates_[i].expr) { ... if (val.is_numeric()) state.sums[i] += ... }]. *)
Definition add_sum (a : AggregateInfo) (tup : list V) (s : float) : float :=
  match agg_expr a with
  | Some e => let v := e tup in if is_numeric v then PrimFloat.add s (to_float64 v) else s
  | None => s
  end.

Fixpoint add_sums (aggs : list AggregateInfo) (ss : list float) (tup : list V) : list float :=
  match aggs, ss with
  | a :: aggs', s :: ss' => add_sum a tup s :: add_sums aggs' ss' tup
  | _, _ => ss
  end.

(** What one child tuple does to the entry [groups_map[key]] ([None]: the
    entry is created by [operator[]]). *)
Definition entry_step (group_by : list group_expr) (aggs : list AggregateInfo)
    (tup : list V) (o : option GroupState) : GroupState :=
  let st := match o with Some st => st | None => empty_state end in
  let st :=
    match counts st with
    | [] => mkGroupState (map (fun e => e tup) group_by)
                         (repeat 0 (List.length aggs)) (repeat 0%float (List.length aggs))
    | _ => st
    end in
  mkGroupState (group_values st) (map (fun c => c + 1) (counts st)) (add_sums aggs (sums st) tup).

(** One iteration of [while (child_->next(tuple))]. *)
Definition open_step (group_by : list group_expr) (aggs : list AggregateInfo)
    (m : StrMap.t) (tup : list V) : StrMap.t :=
  let key := group_key group_by tup in
  StrMap.set key (entry_step group_by aggs tup (StrMap.find key m)) m.

Definition drain (group_by : list group_expr) (aggs : list AggregateInfo)
    (input : list (list V)) : StrMap.t :=
  fold_left (open_step group_by aggs) input [].

(** The aggregate part of an output row. *)
Fixpoint agg_results (aggs : list AggregateInfo) (cs : list Z) (ss : list float) : list V :=
  match aggs, cs, ss with
  | a :: aggs', c :: cs', s :: ss' =>
    (match agg_type a with Count => make_int64 c | _ => make_float64 s end)
      :: agg_results aggs' cs' ss'
  | _, _, _ => []
  end.

Definition finish_row (aggs : list AggregateInfo) (st : GroupState) : list V :=
  group_values st ++ agg_results aggs (counts st) (sums st).

(** [AggregateOperator::open] followed by [next] until it returns false:
    the rows in the map's key order. *)
Definition aggregate (group_by : list group_expr) (aggs : list AggregateInfo)
    (input : list (list V)) : list (list V) :=
  map (fun kv => finish_row aggs (snd kv)) (drain group_by aggs input).

End Aggregate.

(** ** A concrete value layer, used to run the model on examples *)

Module Val.

(** Modelled from the spec: [common::Value] restricted to the kinds the
    examples below use (section 3, "Value. A tagged union over: Null, Bool,
    Int8/16/32/64, Float32/64, ..., Text").  Text forms follow the test
    suite ([tests/cloudSQL_tests.cpp]: booleans print as "TRUE", integers
    in decimal, the double 30 as "30.0"). *)
Inductive value :=
  | VNull
  | VBool (b : bool)
  | VInt64 (z : Z)
  | VFloat64 (f : float)
  | VText (s : string).

Definition Z_to_decimal (z : Z) : string :=
  DecimalString.NilZero.string_of_int (Z.to_int z).

Definition float_of_Z (z : Z) : float :=
  let f := PrimFloat.of_uint63 (Uint63.of_Z (Z.abs z)) in
  if z <? 0 then PrimFloat.opp f else f.

(** Only integral doubles are printed by the examples; the model prints the
    truncated integral part followed by ".0". *)
Definition float_int_part (f : float) : Z :=
  match FloatOps.Prim2SF f with
  | SpecFloat.S754_finite sgn m e =>
    let a := if e <? 0 then Z.pos m / 2 ^ (- e) else Z.pos m * 2 ^ e in
    if sgn then - a else a
  | _ => 0
  end.

Definition val_to_string (v : value) : string :=
  match v with
  | VNull => "NULL"
  | VBool b => if b then "TRUE" else "FALSE"
  | VInt64 z => Z_to_decimal z
  | VFloat64 f => (Z_to_decimal (float_int_part f) ++ ".0")%string
  | VText s => s
  end.

Definition val_to_float64 (v : value) : float :=
  match v with
  | VInt64 z => float_of_Z z
  | VFloat64 f => f
  | VBool b => if b then 1%float else 0%float
  | _ => 0%float
  end.

Definition val_is_numeric (v : value) : bool :=
  match v with VInt64 _ | VFloat64 _ => true | _ => false end.

#[global] Instance value_ops : ValueOps value := {|
  value_to_string := val_to_string;
  make_int64 := VInt64;
  make_float64 := VFloat64;
  make_bool := VBool;
  make_text := VText;
  is_numeric := val_is_numeric;
  to_float64 := val_to_float64;
  stod := fun s => option_map float_of_Z (stoll s)
|}.

(** A four-byte [PageHeader] (two [uint16_t] fields). *)
#[global] Program Instance layout4 : PageLayout := {| HDR := 4 |}.
Next Obligation. lia. Qed.

End Val.

(** * Proofs *)

(** ** The ordered map *)

Module StrMapFacts.
Import StrMap.
Section Facts.
Context {A : Type}.

Definition key_lt (a b : string * A) : Prop := String_as_OT.lt (fst a) (fst b).

Lemma compare_eq_eq (x y : string) : String_as_OT.compare x y = Eq -> x = y.
Proof. destruct (String_as_OT.compare_spec x y); congruence. Qed.

Lemma compare_gt_lt (x y : string) : String_as_OT.compare x y = Gt -> String_as_OT.lt y x.
Proof. destruct (String_as_OT.compare_spec x y); congruence. Qed.

Lemma find_set (k k' : string) (v : A) (m : t) :
  find k (set k' v m) = if String.eqb k k' then Some v else find k m.
Proof.
  induction m as [| [k'' v''] r IH]; simpl; [reflexivity |].
  destruct (String_as_OT.compare k' k'') eqn:C; simpl.
  - apply compare_eq_eq in C; subst k''. destruct (String.eqb k k'); reflexivity.
  - reflexivity.
  - rewrite IH. destruct (String.eqb k k'') eqn:E1; [| reflexivity].
    apply String.eqb_eq in E1; subst k''.
    destruct (String.eqb k k') eqn:E2; [| reflexivity].
    apply String.eqb_eq in E2; subst k'.
    apply compare_gt_lt in C. exfalso. eapply (StrictOrder_Irreflexive k). exact C.
Qed.

Lemma in_keys_set (k k' : string) (v : A) (m : t) :
  In k (map fst (set k' v m)) <-> k' = k \/ In k (map fst m).
Proof.
  induction m as [| [k'' v''] r IH]; simpl; [tauto |].
  destruct (String_as_OT.compare k' k'') eqn:C; simpl.
  - apply compare_eq_eq in C; subst k''. tauto.
  - tauto.
  - rewrite IH. tauto.
Qed.

Lemma hdrel_set (a : string * A) (k : string) (v : A) (m : t) :
  key_lt a (k, v) -> HdRel key_lt a m -> HdRel key_lt a (set k v m).
Proof.
  intros Hak Hm. destruct m as [| [k' v'] r]; simpl.
  - constructor. exact Hak.
  - inversion Hm; subst.
    destruct (String_as_OT.compare k k'); constructor; assumption.
Qed.

Lemma sorted_set (k : string) (v : A) (m : t) :
  Sorted key_lt m -> Sorted key_lt (set k v m).
Proof.
  induction m as [| [k' v'] r IH]; simpl; intro Hs.
  - constructor; constructor.
  - inversion Hs as [| ? ? Hr Hhd]; subst.
    destruct (String_as_OT.compare k k') eqn:C.
    + apply compare_eq_eq in C; subst k'.
      constructor; [exact Hr |].
      destruct r as [| b r']; constructor. inversion Hhd; assumption.
    + constructor; [exact Hs |]. constructor. exact C.
    + constructor; [apply IH; exact Hr |].
      apply hdrel_set; [apply compare_gt_lt; exact C | exact Hhd].
Qed.

Lemma sorted_nodup_keys (m : t) : Sorted key_lt m -> NoDup (map fst m).
Proof.
  intro Hs.
  assert (Hss : StronglySorted key_lt m).
  { apply Sorted_StronglySorted; [| exact Hs].
    intros x y z Hxy Hyz. unfold key_lt in *. etransitivity; eassumption. }
  induction Hss as [| [k v] r Hr IH Hall]; simpl; constructor.
  - intro Hin. apply in_map_iff in Hin as [[k' v'] [Hk Hin]]. simpl in Hk; subst k'.
    rewrite Forall_forall in Hall. specialize (Hall _ Hin). unfold key_lt in Hall; simpl in Hall.
    eapply (StrictOrder_Irreflexive k). exact Hall.
  - apply IH. apply StronglySorted_Sorted. exact Hr.
Qed.

Lemma find_in (k : string) (v : A) (m : t) :
  NoDup (map fst m) -> In (k, v) m -> find k m = Some v.
Proof.
  induction m as [| [k' v'] r IH]; simpl; intros Hnd Hin; [contradiction |].
  inversion Hnd as [| ? ? Hnotin Hnd']; subst.
  destruct Hin as [Heq | Hin].
  - inversion Heq; subst. rewrite String.eqb_refl. reflexivity.
  - destruct (String.eqb k k') eqn:E.
    + apply String.eqb_eq in E; subst k'. exfalso. apply Hnotin.
      apply in_map_iff. exists (k, v). auto.
    + apply IH; assumption.
Qed.

End Facts.
End StrMapFacts.

(** ** AggregateOperator: what a group's row holds *)

Section AggregateProofs.
Context {V : Type} `{ValueOps V}.
Context (group_by : list (@group_expr V)) (aggs : list (@AggregateInfo V)).

(** The tuples of the input whose serialized GROUP BY values are [k], in
    input order. *)
Definition group_of (input : list (list V)) (k : string) : list (list V) :=
  filter (fun tup => String.eqb (group_key group_by tup) k) input.

(** The running double sum the code keeps for aggregate [a]: the numeric
    values of its expression, added in input order from 0.0. *)
Definition sum_of (a : AggregateInfo) (grp : list (list V)) : float :=
  fold_left (fun s tup => add_sum a tup s) grp 0%float.

Definition agg_value (a : AggregateInfo) (grp : list (list V)) : V :=
  match agg_type a with
  | Count => make_int64 (Z.of_nat (List.length grp))
  | _ => make_float64 (sum_of a grp)
  end.

Let step := open_step group_by aggs.
Let estep := fun (o : option GroupState) tup => Some (entry_step group_by aggs tup o).

Lemma find_drain_from (k : string) (l : list (list V)) (m : StrMap.t) :
  StrMap.find k (fold_left step l m)
  = fold_left estep (filter (fun tup => String.eqb (group_key group_by tup) k) l)
              (StrMap.find k m).
Proof.
  revert m; induction l as [| tup l IH]; intro m; simpl; [reflexivity |].
  rewrite IH. unfold step, open_step. rewrite StrMapFacts.find_set.
  rewrite String.eqb_sym.
  destruct (String.eqb (group_key group_by tup) k) eqn:E; simpl.
  - apply String.eqb_eq in E. rewrite E. reflexivity.
  - reflexivity.
Qed.

Lemma keys_drain_from (k : string) (l : list (list V)) (m : StrMap.t) :
  In k (map fst (fold_left step l m))
  <-> In k (map fst m) \/ exists tup, In tup l /\ group_key group_by tup = k.
Proof.
  revert m; induction l as [| tup l IH]; intro m; simpl.
  - split; [tauto |]. intros [Hk | [tup [[] _]]]. exact Hk.
  - rewrite IH. unfold step, open_step. rewrite StrMapFacts.in_keys_set.
    split.
    + intros [[Hk | Hk] | [t' [Hin Hk]]]; eauto.
    + intros [Hk | [t' [[Heq | Hin] Hk]]]; subst; eauto.
Qed.

Lemma sorted_drain_from (l : list (list V)) (m : StrMap.t) :
  Sorted StrMapFacts.key_lt m -> Sorted StrMapFacts.key_lt (fold_left step l m).
Proof.
  revert m; induction l as [| tup l IH]; intros m Hm; simpl; [exact Hm |].
  apply IH. apply StrMapFacts.sorted_set. exact Hm.
Qed.

Lemma add_sums_sum_of (l : list (list V)) (tup : list V) :
  add_sums aggs (map (fun a => sum_of a l) aggs) tup = map (fun a => sum_of a (l ++ [tup])) aggs.
Proof.
  induction aggs as [| a rest IH]; simpl; [reflexivity |].
  f_equal; [| exact IH]. unfold sum_of. rewrite fold_left_app. reflexivity.
Qed.

Lemma map_succ_repeat (c : Z) (n : nat) : map (fun x => x + 1) (repeat c n) = repeat (c + 1) n.
Proof. induction n as [| n IH]; simpl; [reflexivity | rewrite IH; reflexivity]. Qed.

Lemma add_sums_zero (tup : list V) :
  add_sums aggs (repeat 0%float (List.length aggs)) tup = map (fun a => sum_of a [tup]) aggs.
Proof. induction aggs as [| a rest IH]; simpl; [reflexivity | f_equal; exact IH]. Qed.

(** The entry of a non-empty group: counts equal to its size, sums folded
    over it, the GROUP BY values of one of its tuples. *)
Lemma entry_of_group (grp : list (list V)) :
  grp <> [] ->
  exists st, fold_left estep grp None = Some st
    /\ counts st = repeat (Z.of_nat (List.length grp)) (List.length aggs)
    /\ sums st = map (fun a => sum_of a grp) aggs
    /\ exists tr, In tr grp /\ group_values st = map (fun e => e tr) group_by.
Proof.
  induction grp as [| tup l IH] using rev_ind; intro Hne; [congruence |].
  rewrite fold_left_app. simpl.
  destruct l as [| t0 l'] eqn:El.
  - simpl. eexists; split; [reflexivity |]. simpl.
    split; [rewrite map_succ_repeat; reflexivity |].
    split; [apply add_sums_zero |].
    exists tup. split; [left; reflexivity | reflexivity].
  - rewrite <- El in *. destruct IH as [st [Hf [Hc [Hs [tr [Hin Hg]]]]]].
    { rewrite El. discriminate. }
    rewrite Hf. eexists; split; [reflexivity |]. unfold entry_step.
    rewrite Hc. destruct (List.length aggs) as [| n'] eqn:En.
    + apply length_zero_iff_nil in En. rewrite En. simpl.
      split; [reflexivity |]. split; [reflexivity |].
      exists tup. split; [apply in_or_app; right; left; reflexivity | reflexivity].
    + simpl. rewrite Hs, Hg.
      split.
      { rewrite Hc, map_succ_repeat.
        replace (Z.of_nat (List.length (l ++ [tup]))) with (Z.of_nat (List.length l) + 1)
          by (rewrite length_app; simpl; lia).
        reflexivity. }
      split; [apply add_sums_sum_of |].
      exists tr. split; [apply in_or_app; left; exact Hin | reflexivity].
Qed.

Lemma agg_results_value (grp : list (list V)) :
  agg_results aggs (repeat (Z.of_nat (List.length grp)) (List.length aggs))
                   (map (fun a => sum_of a grp) aggs)
  = map (fun a => agg_value a grp) aggs.
Proof.
  induction aggs as [| a rest IH]; simpl; [reflexivity |].
  rewrite IH. unfold agg_value. destruct (agg_type a); reflexivity.
Qed.

End AggregateProofs.

Section AggregateTheorem.
Context {V : Type} `{ValueOps V}.

Lemma forall2_rows {A B C : Type} (P : A -> C -> Prop) (f : B -> C) (m : list (A * B)) :
  (forall k v, In (k, v) m -> P k (f v)) ->
  Forall2 P (map fst m) (map (fun kv => f (snd kv)) m).
Proof.
  induction m as [| [k v] r IH]; simpl; intro Hall; constructor.
  - apply Hall. left. reflexivity.
  - apply IH. intros k' v' Hin. apply Hall. right. exact Hin.
Qed.

Lemma nodup_all_same (ks : list string) (k0 : string) :
  NoDup ks -> (forall k, In k ks -> k = k0) -> (List.length ks <= 1)%nat.
Proof.
  intros Hnd Hall. destruct ks as [| a [| b r]]; simpl; try lia.
  exfalso. inversion Hnd as [| ? ? Hnotin]; subst. apply Hnotin.
  left. rewrite (Hall b), (Hall a); [reflexivity | left; reflexivity | right; left; reflexivity].
Qed.

(** C4 (as amended).  AggregateOperator groups the child's tuples by the
    serialized GROUP BY values and emits, for each distinct key, exactly one
    row: the GROUP BY values of a tuple of that group, then one value per
    declared aggregate, where COUNT is the number of tuples of the group and
    every other aggregate (SUM, and also MIN, MAX and AVG) is the double sum
    of the numeric values of its expression over the group.  With no GROUP BY
    there is one row if the input is not empty and none otherwise. *)
Theorem aggregate_groups_count_and_sums
    (group_by : list group_expr) (aggs : list AggregateInfo) (input : list (list V)) :
  exists ks : list string,
    NoDup ks
    /\ (forall k, In k ks <-> exists tup, In tup input /\ group_key group_by tup = k)
    /\ Forall2 (fun k row =>
          exists tr, In tr (group_of group_by input k)
            /\ row = map (fun e => e tr) group_by
                     ++ map (fun a => agg_value a (group_of group_by input k)) aggs)
        ks (aggregate group_by aggs input)
    /\ (group_by = [] ->
        List.length (aggregate group_by aggs input)
        = match input with [] => 0%nat | _ => 1%nat end).
Proof.
  set (D := drain group_by aggs input).
  assert (Hsorted : Sorted StrMapFacts.key_lt D).
  { apply sorted_drain_from. constructor. }
  assert (Hnd : NoDup (map fst D)) by (apply StrMapFacts.sorted_nodup_keys; exact Hsorted).
  assert (Hkeys : forall k, In k (map fst D) <-> exists tup, In tup input /\ group_key group_by tup = k).
  { intro k. unfold D, drain. rewrite keys_drain_from. simpl. tauto. }
  exists (map fst D). split; [exact Hnd |]. split; [exact Hkeys |]. split.
  - unfold aggregate. fold D. apply forall2_rows. intros k st Hin.
    assert (Hfind : StrMap.find k D = Some st) by (apply StrMapFacts.find_in; assumption).
    unfold D, drain in Hfind. rewrite find_drain_from in Hfind. simpl in Hfind.
    fold (group_of group_by input k) in Hfind.
    destruct (entry_of_group group_by aggs (group_of group_by input k)) as
        [st' [Hf [Hc [Hs [tr [Htr Hg]]]]]].
    { assert (Hk : In k (map fst D)) by (apply in_map_iff; exists (k, st); auto).
      apply Hkeys in Hk as [tup [Hin' Hk]].
      intro Hnil. assert (Hg : In tup (group_of group_by input k)).
      { apply filter_In. split; [exact Hin' | apply String.eqb_eq; exact Hk]. }
      rewrite Hnil in Hg. exact Hg. }
    rewrite Hf in Hfind. inversion Hfind; subst st'.
    exists tr. split; [exact Htr |].
    unfold finish_row. rewrite Hg, Hc, Hs, (agg_results_value group_by). reflexivity.
  - intro Hgb. unfold aggregate. rewrite length_map. fold D.
    assert (Hall : forall k, In k (map fst D) -> k = ""%string).
    { intros k Hk. apply Hkeys in Hk as [tup [_ Hk]]. subst group_by. rewrite <- Hk. reflexivity. }
    pose proof (nodup_all_same _ _ Hnd Hall) as Hle. rewrite length_map in Hle.
    destruct input as [| tup rest].
    + destruct D as [| kv D']; [reflexivity |].
      exfalso. destruct (proj1 (Hkeys (fst kv)) (or_introl eq_refl)) as [? [[] _]].
    + assert (Hin : In ""%string (map fst D)).
      { apply Hkeys. exists tup. split; [left; reflexivity | subst group_by; reflexivity]. }
      destruct D as [| kv D']; [contradiction | simpl in Hle |- *; lia].
Qed.

End AggregateTheorem.

(** C4 (as stated) fails: on the group {10, 20}, MIN yields 30.0, the sum,
    not the minimum 10. *)
Lemma aggregate_min_is_sum_cex :
  aggregate (V := Val.value) [] [mkAgg Min (Some (fun tup => nth 0 tup Val.VNull))]
    [[Val.VInt64 10]; [Val.VInt64 20]]
  = [[Val.VFloat64 30]]
  /\ [Val.VFloat64 30] <> [Val.VFloat64 10]
  /\ [Val.VFloat64 30] <> [Val.VInt64 10].
Proof.
  split; [vm_compute; reflexivity |].
  split; intro Heq; inversion Heq.
Qed.

(** ** The heap table *)

Section HeapProofs.
Context {V : Type} `{ValueOps V} `{PageLayout}.

(** The page [insert] works on at page [p] ([header->free_space_offset == 0]
    re-initialises the header), when the tuple fits there, and the page it
    writes back. *)
Definition norm_page (pg : page) : page :=
  if free_space_offset pg =? 0 then init_header pg else pg.

Definition fits (buf : page) (data : list Z) : bool :=
  (free_space_offset buf + uint16 (Z.of_nat (List.length data) + 1) <? PAGE_SIZE)
  && (uint16 (HDR + (num_slots buf + 1) * 2) <? free_space_offset buf).

Definition place (buf : page) (data : list Z) : page :=
  mkPage (uint16 (free_space_offset buf + uint16 (Z.of_nat (List.length data) + 1)))
         (uint16 (num_slots buf + 1))
         (write_u16 (write_bytes (bytes buf) (free_space_offset buf) (data ++ [NUL]))
                    (HDR + 2 * num_slots buf) (free_space_offset buf)).

Lemma insert_loop_spec (fuel : nat) (s : store) (pn : Z) (data : list Z)
    (tid : tuple_id) (s' : store) :
  insert_loop fuel s pn data = Some (tid, s') ->
  pn <= page_num tid
  /\ slot_num tid = num_slots (norm_page (s (page_num tid)))
  /\ fits (norm_page (s (page_num tid))) data = true
  /\ s' = write_page s (page_num tid) (place (norm_page (s (page_num tid))) data).
Proof.
  revert pn; induction fuel as [| f IH]; intros pn Hins; [discriminate |].
  simpl in Hins.
  destruct (fits (norm_page (s pn)) data) eqn:Hfit.
  - unfold fits, norm_page in Hfit.
    destruct (free_space_offset (s pn) =? 0) eqn:Hz; simpl in Hfit, Hins;
      rewrite Hfit in Hins; inversion Hins; subst; simpl;
      unfold norm_page; rewrite Hz;
      (split; [lia |]); (split; [reflexivity |]);
      (split; [unfold fits; simpl; exact Hfit | reflexivity]).
  - assert (Hnext : insert_loop f s (pn + 1) data = Some (tid, s')).
    { unfold fits, norm_page in Hfit.
      destruct (free_space_offset (s pn) =? 0); simpl in Hfit, Hins;
        rewrite Hfit in Hins; exact Hins. }
    destruct (IH (pn + 1) Hnext) as [Hle Hrest]. split; [lia | exact Hrest].
Qed.

(** Pages of a table file as the code leaves them: either never written
    (header zero) or with a slot array of [num_slots] entries below
    [free_space_offset], which stays within the page. *)
Definition page_ok (pg : page) : Prop :=
  (free_space_offset pg = 0 /\ num_slots pg = 0)
  \/ (0 <= num_slots pg /\ HDR + 128 + num_slots pg <= free_space_offset pg
      /\ free_space_offset pg < PAGE_SIZE).

Definition wf (s : store) : Prop := forall p, page_ok (s p).

(** The table files [create], [insert] and [remove] produce from an empty
    file; an inserted tuple's body and terminator are shorter than 64 KiB
    (otherwise [required], a [uint16_t], wraps and [memcpy] writes past the
    page buffer). *)
Inductive reachable : store -> Prop :=
  | reach_empty : reachable empty_store
  | reach_create s : reachable s -> reachable (create s)
  | reach_insert s fuel (t : list V) tid s' :
      reachable s -> Z.of_nat (List.length (serialize t)) + 1 < 65536 ->
      insert fuel s t = Some (tid, s') -> reachable s'
  | reach_remove s tid : reachable s -> reachable (snd (remove s tid)).

Lemma HDR_bounds : 0 <= HDR <= 4096.
Proof. exact HDR_range. Qed.

Lemma norm_page_ok (pg : page) :
  page_ok pg ->
  0 <= num_slots (norm_page pg)
  /\ HDR + 128 + num_slots (norm_page pg) <= free_space_offset (norm_page pg)
  /\ free_space_offset (norm_page pg) < PAGE_SIZE.
Proof.
  pose proof HDR_bounds. unfold PAGE_SIZE in *.
  intros [[Hf Hn] | Hok]; unfold norm_page.
  - rewrite Hf. simpl. lia.
  - destruct (free_space_offset pg =? 0) eqn:Hz; [apply Z.eqb_eq in Hz; lia | exact Hok].
Qed.

Lemma uint16_small (z : Z) : 0 <= z < 65536 -> uint16 z = z.
Proof. intro Hz. unfold uint16. apply Z.mod_small. exact Hz. Qed.

(** What [fits] gives on a well-formed page, for a body shorter than 64 KiB. *)
Lemma fits_bounds (buf : page) (data : list Z) :
  0 <= num_slots buf -> HDR + 128 + num_slots buf <= free_space_offset buf ->
  free_space_offset buf < PAGE_SIZE ->
  Z.of_nat (List.length data) + 1 < 65536 ->
  fits buf data = true ->
  free_space_offset buf + Z.of_nat (List.length data) + 1 < PAGE_SIZE
  /\ HDR + 2 * num_slots buf + 2 < free_space_offset buf.
Proof.
  pose proof HDR_bounds.
  intros Hn Hlo Hhi Hlen Hfit. unfold fits in Hfit. unfold PAGE_SIZE in *.
  apply andb_prop in Hfit as [F1 F2]. apply Z.ltb_lt in F1, F2.
  rewrite uint16_small in F1 by lia. rewrite uint16_small in F2 by lia. lia.
Qed.

Lemma place_ok (buf : page) (data : list Z) :
  0 <= num_slots buf -> HDR + 128 + num_slots buf <= free_space_offset buf ->
  free_space_offset buf < PAGE_SIZE ->
  Z.of_nat (List.length data) + 1 < 65536 ->
  fits buf data = true ->
  free_space_offset (place buf data) = free_space_offset buf + Z.of_nat (List.length data) + 1
  /\ num_slots (place buf data) = num_slots buf + 1
  /\ page_ok (place buf data).
Proof.
  pose proof HDR_bounds.
  intros Hn Hlo Hhi Hlen Hfit.
  destruct (fits_bounds buf data Hn Hlo Hhi Hlen Hfit) as [B1 B2]. unfold PAGE_SIZE in *.
  unfold place; simpl.
  rewrite (uint16_small (Z.of_nat (List.length data) + 1)) by lia.
  rewrite uint16_small by lia. rewrite (uint16_small (num_slots buf + 1)) by lia.
  split; [lia |]. split; [reflexivity |]. right. simpl. unfold PAGE_SIZE. lia.
Qed.

Lemma write_page_same (s : store) (p : Z) (pg : page) : write_page s p pg p = pg.
Proof. unfold write_page. rewrite Z.eqb_refl. reflexivity. Qed.

Lemma write_page_other (s : store) (p q : Z) (pg : page) : q <> p -> write_page s p pg q = s q.
Proof. intro Hne. unfold write_page. apply Z.eqb_neq in Hne. rewrite Hne. reflexivity. Qed.

Lemma reachable_wf (s : store) : reachable s -> wf s.
Proof.
  pose proof HDR_bounds.
  induction 1 as [| s Hr IH | s fuel t tid s' Hr IH Hlen Hins | s tid Hr IH]; intro p.
  - left. split; reflexivity.
  - unfold create. destruct (Z.eq_dec p 0) as [-> | Hne].
    + rewrite write_page_same. right. unfold PAGE_SIZE. simpl. lia.
    + rewrite write_page_other by exact Hne. apply IH.
  - apply insert_loop_spec in Hins as [_ [_ [Hfit ->]]].
    destruct (Z.eq_dec p (page_num tid)) as [-> | Hne].
    + rewrite write_page_same.
      destruct (norm_page_ok _ (IH (page_num tid))) as [Hn [Hlo Hhi]].
      apply place_ok; assumption.
    + rewrite write_page_other by exact Hne. apply IH.
  - unfold remove, read_page. simpl.
    destruct (free_space_offset (s (page_num tid)) =? 0); [apply IH |].
    destruct (num_slots (s (page_num tid)) <=? slot_num tid); [apply IH |].
    simpl. destruct (Z.eq_dec p (page_num tid)) as [-> | Hne].
    + rewrite write_page_same. exact (IH (page_num tid)).
    + rewrite write_page_other by exact Hne. apply IH.
Qed.

End HeapProofs.

(** ** Bytes written by [insert] and read back by [get] *)

Lemma write_bytes_below (l : list Z) (m : Z -> Z) (a b : Z) :
  b < a -> write_bytes m a l b = m b.
Proof.
  revert m a; induction l as [| c l IH]; intros m a Hb; simpl; [reflexivity |].
  rewrite IH by lia. unfold upd. replace (b =? a) with false by (symmetry; apply Z.eqb_neq; lia).
  reflexivity.
Qed.

Lemma read_cstr_upd_below (m : Z -> Z) (a v x : Z) (n : nat) :
  a < x -> read_cstr (upd m a v) x n = read_cstr m x n.
Proof.
  revert x; induction n as [| n IH]; intros x Hx; simpl; [reflexivity |].
  unfold upd at 1 2. replace (x =? a) with false by (symmetry; apply Z.eqb_neq; lia).
  rewrite IH by lia. reflexivity.
Qed.

Lemma read_cstr_write_bytes (l : list Z) (m : Z -> Z) (x : Z) (n : nat) :
  ~ In 0 l -> (List.length l < n)%nat ->
  read_cstr (write_bytes m x (l ++ [0])) x n = l.
Proof.
  revert m x n; induction l as [| c l IH]; intros m x n Hz Hn; destruct n as [| n];
    simpl in *; try lia.
  - unfold upd. rewrite Z.eqb_refl. reflexivity.
  - rewrite write_bytes_below by lia. unfold upd at 1 2. rewrite Z.eqb_refl.
    destruct (Z.eqb_spec c 0) as [-> | Hc]; [exfalso; apply Hz; left; reflexivity |].
    f_equal. rewrite IH by (tauto || lia). reflexivity.
Qed.

Lemma read_write_u16 (m : Z -> Z) (a v : Z) : 0 <= v < 65536 -> read_u16 (write_u16 m a v) a = v.
Proof.
  intro Hv. unfold read_u16, write_u16, upd.
  rewrite Z.eqb_refl. replace (a =? a + 1) with false by (symmetry; apply Z.eqb_neq; lia).
  rewrite Z.eqb_refl.
  pose proof (Z.div_mod v 256 ltac:(lia)).
  rewrite (Z.mod_small (v / 256) 256) by (split; [apply Z.div_pos; lia | apply Z.div_lt_upper_bound; lia]).
  lia.
Qed.

Lemma string_of_bytes_of_string (s : string) : string_of_bytes (bytes_of_string s) = s.
Proof.
  unfold string_of_bytes, bytes_of_string. rewrite map_map.
  erewrite map_ext; [| intro c; rewrite N2Z.id, ascii_N_embedding; reflexivity].
  rewrite map_id. apply string_of_list_ascii_of_string.
Qed.

Section RoundTrip.
Context {V : Type} `{ValueOps V} `{PageLayout}.

(** A value whose text form survives the pipe-separated body under the
    conversion [get] applies for column type [ty]. *)
Definition text_round_trips (ty : col_type) (v : V) : Prop :=
  ~ In PIPE (bytes_of_string (value_to_string v))
  /\ ~ In NUL (bytes_of_string (value_to_string v))
  /\ convert ty (value_to_string v) = Ret v.

Lemma split_item_app (l rest : list Z) :
  ~ In PIPE l -> split_item (l ++ PIPE :: rest) = (l, rest).
Proof.
  induction l as [| c l IH]; intro Hp; simpl.
  - reflexivity.
  - destruct (Z.eqb_spec c PIPE) as [-> | Hc]; [exfalso; apply Hp; left; reflexivity |].
    rewrite IH by (intro Hin; apply Hp; right; exact Hin). reflexivity.
Qed.

Lemma getline_app (l rest : list Z) :
  ~ In PIPE l -> getline (l ++ PIPE :: rest) = Some (l, rest).
Proof. intro Hp. rewrite <- (split_item_app l rest Hp). destruct l; reflexivity. Qed.

Lemma serialize_cons (v : V) (t : list V) :
  serialize (v :: t) = bytes_of_string (value_to_string v) ++ PIPE :: serialize t.
Proof. unfold serialize. simpl. rewrite <- app_assoc. reflexivity. Qed.

Lemma parse_values_serialize (sch : schema) (t : list V) :
  Forall2 text_round_trips sch t -> parse_values sch (serialize t) = Ret t.
Proof.
  induction 1 as [| ty v sch' t' [Hp [_ Hc]] _ IH]; [reflexivity |].
  rewrite serialize_cons. cbn [parse_values]. rewrite getline_app by exact Hp.
  rewrite string_of_bytes_of_string, Hc, IH. reflexivity.
Qed.

Lemma serialize_no_nul (sch : schema) (t : list V) :
  Forall2 text_round_trips sch t -> ~ In 0 (serialize t).
Proof.
  induction 1 as [| ty v sch' t' [_ [Hn _]] _ IH]; simpl; [tauto |].
  rewrite serialize_cons, in_app_iff. simpl. unfold PIPE, NUL in *. intros [Hin | [Hin | Hin]]; [tauto | lia | tauto].
Qed.

End RoundTrip.

Section HeapTheorems.
Context {V : Type} `{ValueOps V} `{PageLayout}.

Lemma insert_loop_first (fuel : nat) (s : store) (pn : Z) (data : list Z) :
  fits (norm_page (s pn)) data = true ->
  insert_loop (S fuel) s pn data
  = Some (mkTid pn (num_slots (norm_page (s pn))),
          write_page s pn (place (norm_page (s pn)) data)).
Proof.
  intro Hfit. simpl. unfold fits, norm_page in *.
  destruct (free_space_offset (s pn) =? 0); simpl in *; rewrite Hfit; reflexivity.
Qed.

(** C1 (as amended).  Right after [insert] returns a TupleId, [get] with
    that id gives the tuple back, provided each value's text form contains
    neither '|' nor a NUL byte and is read back as the same value by the
    conversion [get] applies for its column, and the body is shorter than
    64 KiB. *)
Theorem insert_get_round_trip (sch : schema) (s : store) (fuel : nat) (t : list V)
    (tid : tuple_id) (s' : store) :
  reachable s ->
  Forall2 text_round_trips sch t ->
  Z.of_nat (List.length (serialize t)) + 1 < 65536 ->
  insert fuel s t = Some (tid, s') ->
  get sch s' tid = Ret (Some t).
Proof.
  intros Hr Hrt Hlen Hins. pose proof HDR_bounds as Hb.
  unfold insert in Hins. apply insert_loop_spec in Hins as [_ [Hslot [Hfit ->]]].
  destruct (norm_page_ok _ (reachable_wf s Hr (page_num tid))) as [Hn [Hlo Hhi]].
  destruct (fits_bounds _ _ Hn Hlo Hhi Hlen Hfit) as [B1 B2].
  destruct (place_ok _ _ Hn Hlo Hhi Hlen Hfit) as [Pf [Pn _]].
  unfold get, read_page. rewrite write_page_same, Pf, Pn, Hslot.
  unfold PAGE_SIZE in *.
  replace (_ + Z.of_nat _ + 1 =? 0) with false by (symmetry; apply Z.eqb_neq; lia).
  replace (num_slots _ + 1 <=? num_slots _) with false by (symmetry; apply Z.leb_gt; lia).
  unfold place. cbn [bytes].
  rewrite read_write_u16 by lia.
  replace (free_space_offset _ =? 0) with false by (symmetry; apply Z.eqb_neq; lia).
  unfold write_u16. rewrite !read_cstr_upd_below by lia.
  rewrite read_cstr_write_bytes.
  - rewrite (parse_values_serialize sch t Hrt). reflexivity.
  - exact (serialize_no_nul sch t Hrt).
  - apply Nat2Z.inj_lt. rewrite Z2Nat.id by lia. unfold PAGE_SIZE. lia.
Qed.

(** C3 (as amended).  [insert] does not keep the null id (0,0) out: the
    first tuple inserted into a freshly created table (when it fits in a
    page) receives (0,0), after which page 0 holds one slot; while page 0
    holds a slot, every later [insert] returns an id other than (0,0) and
    page 0 keeps a slot, and [remove] does not take it away. *)
Theorem insert_null_id_only_first :
  (forall (s : store) (t : list V) (fuel : nat),
     HDR + 128 + Z.of_nat (List.length (serialize t)) + 1 < PAGE_SIZE ->
     exists s', insert (S fuel) (create s) t = Some (mkTid 0 0, s') /\ num_slots (s' 0) = 1)
  /\ (forall (s : store) (t : list V) (fuel : nat) (tid : tuple_id) (s' : store),
        reachable s -> 0 < num_slots (s 0) ->
        insert fuel s t = Some (tid, s') ->
        is_null tid = false /\ 0 < num_slots (s' 0))
  /\ (forall (s : store) (tid : tuple_id),
        0 < num_slots (s 0) -> 0 < num_slots (snd (remove s tid) 0)).
Proof.
  pose proof HDR_bounds as Hb. split; [| split].
  - intros s t fuel Hfit.
    assert (Hn : norm_page (create s 0) = init_header zero_page).
    { unfold create. rewrite write_page_same. unfold norm_page. simpl.
      replace (HDR + 128 =? 0) with false by (symmetry; apply Z.eqb_neq; lia). reflexivity. }
    assert (Hf : fits (norm_page (create s 0)) (serialize t) = true).
    { rewrite Hn. unfold fits. simpl. unfold PAGE_SIZE in *.
      rewrite !uint16_small by lia. apply andb_true_intro; split; apply Z.ltb_lt; lia. }
    unfold insert. rewrite (insert_loop_first fuel _ 0 _ Hf), Hn.
    eexists; split; [reflexivity |].
    rewrite write_page_same. reflexivity.
  - intros s t fuel tid s' Hr Hpos Hins.
    pose proof (reachable_wf s Hr 0) as Hok0.
    unfold insert in Hins. apply insert_loop_spec in Hins as [_ [Hslot [Hfit ->]]].
    destruct (Z.eq_dec (page_num tid) 0) as [Hp | Hp].
    + rewrite Hp in *. unfold norm_page in Hslot |- *.
      destruct Hok0 as [[_ Hz] | [Hn [Hlo Hhi]]]; [lia |].
      replace (free_space_offset (s 0) =? 0) with false in * by (symmetry; apply Z.eqb_neq; lia).
      unfold is_null. rewrite Hp, Hslot. replace (num_slots (s 0) =? 0) with false by (symmetry; apply Z.eqb_neq; lia).
      split; [apply andb_false_r |].
      rewrite write_page_same. unfold place. cbn [num_slots]. unfold PAGE_SIZE in *.
      rewrite uint16_small by lia. lia.
    + unfold is_null. replace (page_num tid =? 0) with false by (symmetry; apply Z.eqb_neq; exact Hp).
      split; [reflexivity |]. rewrite write_page_other by lia. exact Hpos.
  - intros s tid Hpos. unfold remove, read_page.
    destruct (free_space_offset (s (page_num tid)) =? 0); [exact Hpos |].
    destruct (num_slots (s (page_num tid)) <=? slot_num tid); [exact Hpos |].
    simpl. destruct (Z.eq_dec (page_num tid) 0) as [Hp | Hp].
    + rewrite Hp in *. rewrite write_page_same. exact Hpos.
    + rewrite write_page_other by lia. exact Hpos.
Qed.

(** [n] inserts of the same tuple. *)
Fixpoint insert_n (fuel n : nat) (s : store) (t : list V) : option store :=
  match n with
  | O => Some s
  | S k =>
    match insert fuel s t with
    | Some (_, s') => insert_n fuel k s' t
    | None => None
    end
  end.

End HeapTheorems.

(** ** Concrete runs on the [Val] instance *)

(** A witness for C1: a fresh table over (INT64, TEXT) and the row
    (-42, 'hello'). *)
Lemma insert_get_round_trip_witness :
  exists tid s',
    insert (V := Val.value) 1 (create empty_store) [Val.VInt64 (-42); Val.VText "hello"]
    = Some (tid, s')
    /\ get [TYPE_INT64; TYPE_TEXT] s' tid = Ret (Some [Val.VInt64 (-42); Val.VText "hello"]).
Proof.
  destruct (insert (V := Val.value) 1 (create empty_store) [Val.VInt64 (-42); Val.VText "hello"])
    as [[tid s'] |] eqn:E.
  - exists tid, s'. split; [reflexivity |].
    apply (insert_get_round_trip [TYPE_INT64; TYPE_TEXT] (create empty_store) 1
             [Val.VInt64 (-42); Val.VText "hello"] tid s').
    + apply reach_create. apply reach_empty.
    + repeat constructor; vm_compute; intuition congruence.
    + vm_compute. reflexivity.
    + exact E.
  - vm_compute in E. discriminate E.
Defined.

(** C1 (as stated) fails: the text value 'a|b' is inserted into a fresh
    table and [get] returns the text 'a'. *)
Lemma insert_get_pipe_cex :
  exists tid s',
    insert (V := Val.value) 1 (create empty_store) [Val.VText "a|b"] = Some (tid, s')
    /\ get [TYPE_TEXT] s' tid = Ret (Some [Val.VText "a"])
    /\ [Val.VText "a"] <> [Val.VText "a|b"].
Proof.
  eexists; eexists; split; [vm_compute; reflexivity |].
  split; [vm_compute; reflexivity | intro Heq; inversion Heq].
Qed.

(** A witness for C3: a fresh table receives the row (7). *)
Lemma insert_null_id_only_first_witness :
  exists s',
    insert (V := Val.value) 1 (create empty_store) [Val.VInt64 7] = Some (mkTid 0 0, s')
    /\ num_slots (s' 0) = 1.
Proof.
  apply (proj1 insert_null_id_only_first empty_store [Val.VInt64 7] 0%nat).
  vm_compute. reflexivity.
Defined.

(** C3 (as stated) fails: the first insert into a fresh table returns the
    id (0,0), which [is_null] reports as null. *)
Lemma insert_returns_null_id_cex :
  exists s',
    insert (V := Val.value) 1 (create empty_store) [Val.VInt64 1] = Some (mkTid 0 0, s')
    /\ is_null (mkTid 0 0) = true.
Proof.
  eexists; split; [vm_compute; reflexivity | reflexivity].
Qed.

(** C2: with a 4-byte page header, 64 inserts of the row (1) into a fresh
    table scan back as 64 rows; after a 65th insert [tuple_count] says 65
    but the scan throws, since slot 64's entry is written over the body of
    tuple 0. *)
Lemma scan_after_65_inserts_throws :
  match insert_n (V := Val.value) 2 64 (create empty_store) [Val.VInt64 1] with
  | Some s => scan [TYPE_INT64] 200 s = Some (Ret (repeat [Val.VInt64 1] 64))
  | None => False
  end
  /\ match insert_n (V := Val.value) 2 65 (create empty_store) [Val.VInt64 1] with
     | Some s => tuple_count 10 s = Some 65 /\ scan [TYPE_INT64] 200 s = Some Throw
     | None => False
     end.
Proof.
  split; vm_compute; [reflexivity | split; reflexivity].
Qed.

(** ** More of the heap table: update, tuple_count, the page prefix *)

Section HeapMore.
Context {V : Type} `{ValueOps V} `{PageLayout}.


(** [slots[tuple_id.slot_num]]: the slot entry [get] and [remove] look at. *)
Definition slot_offset (s : store) (tid : tuple_id) : Z :=
  read_u16 (bytes (s (page_num tid))) (HDR + 2 * slot_num tid).

(** The pages the table file has initialised ([free_space_offset <> 0])
    form a prefix 0, 1, ..., and no page has a negative number. *)
Definition prefix_ok (s : store) : Prop :=
  (forall p, p < 0 -> free_space_offset (s p) = 0)
  /\ (forall p q, 0 <= q <= p -> free_space_offset (s p) <> 0 -> free_space_offset (s q) <> 0).

(** The number of non-zero values among [f 0], ..., [f (n-1)]. *)
Definition nz_count (f : nat -> Z) (n : nat) : Z :=
  Z.of_nat (List.length (filter (fun j => negb (f j =? 0)) (seq 0 n))).

(** The live slots of [k] consecutive pages from [pn], as [tuple_count]
    adds them up. *)
Fixpoint pages_from (s : store) (pn : Z) (k : nat) : Z :=
  match k with
  | O => 0
  | S k' => live_slots (s pn) + pages_from s (pn + 1) k'
  end.

End HeapMore.

Section HeapMoreProofs.
Context {V : Type} `{ValueOps V} `{PageLayout}.

Lemma insert_loop_skips (fuel : nat) (s : store) (pn : Z) (data : list Z)
    (tid : tuple_id) (s' : store) :
  insert_loop fuel s pn data = Some (tid, s') ->
  forall q, pn <= q < page_num tid -> fits (norm_page (s q)) data = false.
Proof.
  revert pn; induction fuel as [| f IH]; intros pn Hins; [discriminate |].
  simpl in Hins.
  destruct (fits (norm_page (s pn)) data) eqn:Hfit.
  - unfold fits, norm_page in Hfit.
    destruct (free_space_offset (s pn) =? 0) eqn:Hz; simpl in Hfit, Hins;
      rewrite Hfit in Hins; inversion Hins; subst; simpl; intros q Hq; lia.
  - assert (Hnext : insert_loop f s (pn + 1) data = Some (tid, s')).
    { unfold fits, norm_page in Hfit.
      destruct (free_space_offset (s pn) =? 0); simpl in Hfit, Hins;
        rewrite Hfit in Hins; exact Hins. }
    intros q Hq. destruct (Z.eq_dec q pn) as [-> | Hne]; [exact Hfit |].
    apply (IH (pn + 1) Hnext). lia.
Qed.

(** A tuple that does not fit in a fresh page fits in no page. *)
Lemma fits_init_false (pg buf : page) (data : list Z) :
  free_space_offset pg = 0 -> fits (norm_page pg) data = false -> page_ok buf ->
  fits (norm_page buf) data = false.
Proof.
  pose proof HDR_bounds as Hb.
  intros Hz Hf Hok. destruct (norm_page_ok _ Hok) as [Hn [Hlo Hhi]].
  assert (E : norm_page pg = init_header pg) by (unfold norm_page; rewrite Hz; reflexivity).
  rewrite E in Hf. unfold fits in *. simpl in Hf.
  apply andb_false_iff in Hf as [Hf | Hf].
  - apply Z.ltb_ge in Hf. apply andb_false_intro1. apply Z.ltb_ge. lia.
  - exfalso. apply Z.ltb_ge in Hf. rewrite uint16_small in Hf by lia. lia.
Qed.

Lemma remove_fso (s : store) (tid : tuple_id) (p : Z) :
  free_space_offset (snd (remove s tid) p) = free_space_offset (s p).
Proof.
  unfold remove, read_page.
  destruct (free_space_offset (s (page_num tid)) =? 0); [reflexivity |].
  destruct (num_slots (s (page_num tid)) <=? slot_num tid); [reflexivity |].
  simpl. destruct (Z.eq_dec p (page_num tid)) as [-> | Hne].
  - rewrite write_page_same. reflexivity.
  - rewrite write_page_other by exact Hne. reflexivity.
Qed.

(** The page [insert] writes: every page before it is initialised. *)
Lemma insert_lower_pages_init (s : store) (t : list V) (fuel : nat) (tid : tuple_id) (s' : store) :
  reachable s -> insert fuel s t = Some (tid, s') ->
  forall q, 0 <= q < page_num tid -> free_space_offset (s q) <> 0.
Proof.
  intros Hr Hins q Hq Hz. unfold insert in Hins.
  pose proof (insert_loop_skips _ _ _ _ _ _ Hins q Hq) as Hskip.
  apply insert_loop_spec in Hins as [_ [_ [Hfit _]]].
  rewrite (fits_init_false _ _ _ Hz Hskip (reachable_wf s Hr (page_num tid))) in Hfit.
  discriminate.
Qed.

Lemma reachable_prefix (s : store) : reachable s -> prefix_ok s.
Proof.
  pose proof HDR_bounds as Hb.
  induction 1 as [| s Hr IH | s fuel t tid s' Hr IH Hlen Hins | s tid Hr IH].
  - split; intros; [reflexivity | contradiction].
  - destruct IH as [Hneg Hpre]. unfold create. split.
    + intros p Hp. rewrite write_page_other by lia. apply Hneg. exact Hp.
    + intros p q Hq Hp. destruct (Z.eq_dec q 0) as [-> | Hq0].
      * rewrite write_page_same. simpl. lia.
      * rewrite write_page_other by exact Hq0.
        rewrite write_page_other in Hp by lia. apply (Hpre p); [lia | exact Hp].
  - destruct IH as [Hneg Hpre].
    pose proof (insert_lower_pages_init s t fuel tid s' Hr Hins) as Hlow.
    unfold insert in Hins. apply insert_loop_spec in Hins as [HP [_ [Hfit ->]]].
    destruct (norm_page_ok _ (reachable_wf s Hr (page_num tid))) as [Hn [Hlo Hhi]].
    destruct (place_ok _ _ Hn Hlo Hhi Hlen Hfit) as [Pf _].
    split.
    + intros p Hp. rewrite write_page_other by lia. apply Hneg. exact Hp.
    + intros p q Hq Hp.
      destruct (Z.eq_dec q (page_num tid)) as [-> | Hqn].
      * rewrite write_page_same, Pf. lia.
      * rewrite write_page_other by exact Hqn.
        destruct (Z.eq_dec p (page_num tid)) as [-> | Hpn].
        -- apply Hlow. lia.
        -- rewrite write_page_other in Hp by exact Hpn. apply (Hpre p); [lia | exact Hp].
  - destruct IH as [Hneg Hpre]. split.
    + intros p Hp. rewrite remove_fso. apply Hneg. exact Hp.
    + intros p q Hq Hp. rewrite remove_fso in Hp |- *. apply (Hpre p); assumption.
Qed.

(** Counting non-zero slot entries. *)
Lemma nz_count_S (f : nat -> Z) (n : nat) :
  nz_count f (S n) = nz_count f n + (if f n =? 0 then 0 else 1).
Proof.
  unfold nz_count. rewrite seq_S, filter_app, length_app. simpl.
  destruct (f n =? 0); simpl; lia.
Qed.

Lemma nz_count_ext (f g : nat -> Z) (n : nat) :
  (forall i, (i < n)%nat -> f i = g i) -> nz_count f n = nz_count g n.
Proof.
  induction n as [| n IH]; intro Hfg; [reflexivity |].
  rewrite !nz_count_S, IH by (intros i Hi; apply Hfg; lia).
  rewrite (Hfg n) by lia. reflexivity.
Qed.


Lemma live_slots_nz (pg : page) :
  live_slots pg = nz_count (fun j => read_u16 (bytes pg) (HDR + 2 * Z.of_nat j)) (Z.to_nat (num_slots pg)).
Proof. reflexivity. Qed.

Lemma read_u16_write_u16_other (m : Z -> Z) (a b v : Z) :
  b + 1 < a \/ a + 1 < b -> read_u16 (write_u16 m a v) b = read_u16 m b.
Proof.
  intro Hab. unfold read_u16, write_u16, upd.
  replace (b =? a + 1) with false by (symmetry; apply Z.eqb_neq; lia).
  replace (b =? a) with false by (symmetry; apply Z.eqb_neq; lia).
  replace (b + 1 =? a + 1) with false by (symmetry; apply Z.eqb_neq; lia).
  replace (b + 1 =? a) with false by (symmetry; apply Z.eqb_neq; lia).
  reflexivity.
Qed.

Lemma read_u16_write_bytes_below (l : list Z) (m : Z -> Z) (a b : Z) :
  b + 1 < a -> read_u16 (write_bytes m a l) b = read_u16 m b.
Proof.
  intro Hb. unfold read_u16. rewrite !write_bytes_below by lia. reflexivity.
Qed.

(** [insert] adds one live slot to the page it writes. *)
Lemma live_place (buf : page) (data : list Z) :
  0 <= num_slots buf -> HDR + 128 + num_slots buf <= free_space_offset buf ->
  free_space_offset buf < PAGE_SIZE ->
  Z.of_nat (List.length data) + 1 < 65536 ->
  fits buf data = true ->
  live_slots (place buf data) = live_slots buf + 1.
Proof.
  pose proof HDR_bounds as Hb.
  intros Hn Hlo Hhi Hlen Hfit.
  destruct (fits_bounds _ _ Hn Hlo Hhi Hlen Hfit) as [B1 B2].
  destruct (place_ok _ _ Hn Hlo Hhi Hlen Hfit) as [_ [Pn _]].
  rewrite !live_slots_nz, Pn.
  replace (Z.to_nat (num_slots buf + 1)) with (S (Z.to_nat (num_slots buf))) by lia.
  rewrite nz_count_S. unfold place at 2. cbn [bytes].
  rewrite Z2Nat.id by lia. unfold PAGE_SIZE in *.
  rewrite read_write_u16 by lia.
  replace (free_space_offset buf =? 0) with false by (symmetry; apply Z.eqb_neq; lia).
  f_equal. apply nz_count_ext. intros i Hi. unfold place. cbn [bytes].
  rewrite read_u16_write_u16_other by lia.
  rewrite read_u16_write_bytes_below by lia. reflexivity.
Qed.


Lemma pages_from_S (s : store) (pn : Z) (k : nat) :
  pages_from s pn (S k) = pages_from s pn k + live_slots (s (pn + Z.of_nat k)).
Proof.
  revert pn; induction k as [| k IH]; intro pn.
  - cbn [pages_from]. change (Z.of_nat 0) with 0. rewrite !Z.add_0_r. lia.
  - change (pages_from s pn (S (S k))) with (live_slots (s pn) + pages_from s (pn + 1) (S k)).
    rewrite IH. cbn [pages_from].
    replace (pn + 1 + Z.of_nat k) with (pn + Z.of_nat (S k)) by lia. lia.
Qed.

Lemma pages_from_write_out (s : store) (P : Z) (pg : page) (pn : Z) (k : nat) :
  P < pn \/ pn + Z.of_nat k <= P ->
  pages_from (write_page s P pg) pn k = pages_from s pn k.
Proof.
  revert pn; induction k as [| k IH]; intros pn HP; simpl; [reflexivity |].
  rewrite write_page_other by lia. rewrite IH by lia. reflexivity.
Qed.

Lemma pages_from_write (s : store) (P : Z) (pg : page) (pn : Z) (k : nat) :
  pn <= P < pn + Z.of_nat k ->
  pages_from (write_page s P pg) pn k = pages_from s pn k - live_slots (s P) + live_slots pg.
Proof.
  revert pn; induction k as [| k IH]; intros pn HP; simpl; [lia |].
  destruct (Z.eq_dec P pn) as [-> | Hne].
  - rewrite write_page_same. rewrite pages_from_write_out by lia. lia.
  - rewrite write_page_other by lia. rewrite IH by lia. lia.
Qed.

Lemma tc_loop_some (fuel : nat) (s : store) (pn c r : Z) :
  tuple_count_loop fuel s pn c = Some r ->
  exists k, (k < fuel)%nat
    /\ (forall i, (i < k)%nat -> free_space_offset (s (pn + Z.of_nat i)) <> 0)
    /\ free_space_offset (s (pn + Z.of_nat k)) = 0
    /\ r = c + pages_from s pn k.
Proof.
  revert pn c; induction fuel as [| f IH]; intros pn c Hr; [discriminate |].
  simpl in Hr. unfold read_page in Hr.
  destruct (Z.eqb_spec (free_space_offset (s pn)) 0) as [Hz | Hnz].
  - inversion Hr; subst. exists O. split; [lia |]. split; [intros; lia |].
    split; [rewrite Z.add_0_r; exact Hz | simpl; lia].
  - destruct (IH _ _ Hr) as [k [Hk [Hi [Hz Hres]]]]. exists (S k). split; [lia |].
    split.
    + intros [| i] Hi'; [rewrite Z.add_0_r; exact Hnz |].
      replace (pn + Z.of_nat (S i)) with (pn + 1 + Z.of_nat i) by lia. apply Hi. lia.
    + split; [replace (pn + Z.of_nat (S k)) with (pn + 1 + Z.of_nat k) by lia; exact Hz |].
      simpl. lia.
Qed.

Lemma tc_loop_eval (k fuel : nat) (s : store) (pn c : Z) :
  (k < fuel)%nat ->
  (forall i, (i < k)%nat -> free_space_offset (s (pn + Z.of_nat i)) <> 0) ->
  free_space_offset (s (pn + Z.of_nat k)) = 0 ->
  tuple_count_loop fuel s pn c = Some (c + pages_from s pn k).
Proof.
  revert fuel pn c; induction k as [| k IH]; intros fuel pn c Hk Hi Hz;
    destruct fuel as [| f]; try lia; simpl; unfold read_page.
  - rewrite Z.add_0_r in Hz. rewrite Hz. simpl. f_equal. lia.
  - pose proof (Hi O ltac:(lia)) as Hnz. rewrite Z.add_0_r in Hnz. apply Z.eqb_neq in Hnz. rewrite Hnz.
    rewrite (IH f (pn + 1) (c + live_slots (s pn))); [f_equal; lia | lia | |].
    + intros i Hi'. replace (pn + 1 + Z.of_nat i) with (pn + Z.of_nat (S i)) by lia. apply Hi. lia.
    + replace (pn + 1 + Z.of_nat k) with (pn + Z.of_nat (S k)) by lia. exact Hz.
Qed.

End HeapMoreProofs.

Section HeapMoreCore.
Context {V : Type} `{ValueOps V} `{PageLayout}.

Lemma get_none_of_tombstone (sch : schema) (s : store) (tid : tuple_id) :
  slot_offset s tid = 0 -> get sch s tid = Ret None.
Proof.
  unfold get, read_page, slot_offset. intro Hoff.
  destruct (free_space_offset (s (page_num tid)) =? 0); [reflexivity |].
  destruct (num_slots (s (page_num tid)) <=? slot_num tid); [reflexivity |].
  rewrite Hoff. reflexivity.
Qed.

(** What a successful [remove] did. *)
Lemma remove_true_inv (s : store) (tid : tuple_id) (s' : store) :
  remove s tid = (true, s') ->
  free_space_offset (s (page_num tid)) <> 0
  /\ slot_num tid < num_slots (s (page_num tid))
  /\ s' = write_page s (page_num tid)
            (mkPage (free_space_offset (s (page_num tid))) (num_slots (s (page_num tid)))
                    (write_u16 (bytes (s (page_num tid))) (HDR + 2 * slot_num tid) 0)).
Proof.
  unfold remove, read_page.
  destruct (Z.eqb_spec (free_space_offset (s (page_num tid))) 0) as [Hz | Hnz]; [discriminate |].
  destruct (Z.leb_spec (num_slots (s (page_num tid))) (slot_num tid)) as [Hle | Hlt]; [discriminate |].
  intro Heq. inversion Heq. auto.
Qed.

Lemma remove_tombstone_core (s : store) (tid : tuple_id) (s' : store) :
  remove s tid = (true, s') -> slot_offset s' tid = 0.
Proof.
  intro Hrem. apply remove_true_inv in Hrem as [_ [_ ->]].
  unfold slot_offset. rewrite write_page_same. cbn [bytes]. apply read_write_u16. lia.
Qed.

Lemma count_insert_core (s : store) (fuel fuel' : nat) (t : list V) (tid : tuple_id)
    (s' : store) (n : Z) :
  reachable s -> Z.of_nat (List.length (serialize t)) + 1 < 65536 ->
  insert fuel' s t = Some (tid, s') -> tuple_count fuel s = Some n ->
  tuple_count (S fuel) s' = Some (n + 1).
Proof.
  pose proof HDR_bounds as Hb.
  intros Hr Hlen Hins Hc.
  destruct (reachable_prefix s Hr) as [Hneg Hpre].
  pose proof (insert_lower_pages_init s t fuel' tid s' Hr Hins) as Hlow.
  unfold insert in Hins. apply insert_loop_spec in Hins as [HP [_ [Hfit ->]]].
  destruct (norm_page_ok _ (reachable_wf s Hr (page_num tid))) as [Hn [Hlo Hhi]].
  destruct (place_ok _ _ Hn Hlo Hhi Hlen Hfit) as [Pf _].
  pose proof (live_place _ _ Hn Hlo Hhi Hlen Hfit) as Hlive.
  set (P := page_num tid) in *.
  unfold tuple_count in *. apply tc_loop_some in Hc as [k [Hk [Hi [Hz ->]]]].
  rewrite Z.add_0_l in Hz.
  assert (HPk : P <= Z.of_nat k).
  { destruct (Z_le_gt_dec P (Z.of_nat k)) as [Hle | Hgt]; [exact Hle |].
    exfalso. apply (Hlow (Z.of_nat k)); [lia | exact Hz]. }
  destruct (Z.eq_dec P (Z.of_nat k)) as [HPe | HPne].
  - assert (Hl0 : live_slots (norm_page (s P)) = 0).
    { unfold norm_page. rewrite HPe, Hz. reflexivity. }
    rewrite (tc_loop_eval (S k)); [| lia | |].
    + rewrite pages_from_S, pages_from_write_out by lia.
      rewrite Z.add_0_l, <- HPe, write_page_same, Hlive, Hl0. f_equal; lia.
    + intros i Hi'. rewrite Z.add_0_l. destruct (Z.eq_dec (Z.of_nat i) P) as [E | E].
      * rewrite E, write_page_same, Pf. lia.
      * rewrite write_page_other by exact E. specialize (Hi i ltac:(lia)).
        rewrite Z.add_0_l in Hi. exact Hi.
    + rewrite Z.add_0_l. rewrite write_page_other by lia.
      destruct (Z.eq_dec (free_space_offset (s (Z.of_nat (S k)))) 0) as [E | E]; [exact E |].
      exfalso. apply (Hpre (Z.of_nat (S k)) (Z.of_nat k)); [lia | exact E | exact Hz].
  - assert (Hnorm : norm_page (s P) = s P).
    { unfold norm_page. assert (HP0 := Hi (Z.to_nat P) ltac:(lia)).
      rewrite Z.add_0_l, Z2Nat.id in HP0 by lia. apply Z.eqb_neq in HP0. rewrite HP0. reflexivity. }
    rewrite Hnorm in Hlive, Pf, Hn, Hlo.
    rewrite (tc_loop_eval k); [| lia | |].
    + rewrite Hnorm. rewrite pages_from_write by lia. rewrite Hlive. f_equal; lia.
    + intros i Hi'. rewrite Z.add_0_l. destruct (Z.eq_dec (Z.of_nat i) P) as [E | E].
      * rewrite E, write_page_same, Hnorm, Pf. lia.
      * rewrite write_page_other by exact E. specialize (Hi i Hi').
        rewrite Z.add_0_l in Hi. exact Hi.
    + rewrite Z.add_0_l, write_page_other by lia. exact Hz.
Qed.


(** [insert] leaves every existing slot entry as it was. *)
Lemma insert_keeps_slot_entries (s : store) (fuel : nat) (t : list V) (tid tid' : tuple_id)
    (s' : store) :
  reachable s -> Z.of_nat (List.length (serialize t)) + 1 < 65536 ->
  insert fuel s t = Some (tid, s') ->
  0 <= slot_num tid' < num_slots (s (page_num tid')) ->
  slot_offset s' tid' = slot_offset s tid'.
Proof.
  pose proof HDR_bounds as Hb.
  intros Hr Hlen Hins Hslot.
  pose proof (reachable_wf s Hr (page_num tid')) as Hok'.
  unfold insert in Hins. apply insert_loop_spec in Hins as [_ [_ [Hfit ->]]].
  unfold slot_offset. destruct (Z.eq_dec (page_num tid') (page_num tid)) as [E | E].
  - rewrite E in *. rewrite write_page_same.
    destruct (norm_page_ok _ (reachable_wf s Hr (page_num tid))) as [Hn [Hlo Hhi]].
    destruct (fits_bounds _ _ Hn Hlo Hhi Hlen Hfit) as [B1 B2].
    destruct Hok' as [[Hz Hz'] | Hok']; [lia |].
    assert (Hnorm : norm_page (s (page_num tid)) = s (page_num tid)).
    { unfold norm_page. replace (free_space_offset (s (page_num tid)) =? 0) with false
        by (symmetry; apply Z.eqb_neq; lia). reflexivity. }
    rewrite Hnorm in *. unfold place. cbn [bytes].
    rewrite read_u16_write_u16_other by lia. rewrite read_u16_write_bytes_below by lia.
    reflexivity.
  - rewrite write_page_other by exact E. reflexivity.
Qed.




End HeapMoreCore.

(** ** The executor's operators, over the tuples their children return *)

Section Operators.
Context {V : Type} `{ValueOps V}.

(** A child operator seen through its [next]: the tuples it has still to
    return, in order ([child_->next(t)] is [false] once they are used up). *)
Definition child_next (c : list (list V)) : option (list V * list (list V)) :=
  match c with
  | [] => None
  | t :: r => Some (t, r)
  end.

(** Calling an operator's [next] until it returns false ([None]: out of
    fuel). *)
Fixpoint run_next {St : Type} (next : St -> option (list V * St)) (fuel : nat) (st : St)
  : option (list (list V)) :=
  match fuel with
  | O => None
  | S f =>
    match next st with
    | None => Some []
    | Some (t, st') =>
      match run_next next f st' with
      | Some ts => Some (t :: ts)
      | None => None
      end
    end
  end.

(** [FilterOperator::next]: the [while (child_->next(tuple))] loop; [cond]
    is [condition_->evaluate(&tuple, &schema_).as_bool()]. *)
Fixpoint filter_next (cond : list V -> bool) (c : list (list V)) : option (list V * list (list V)) :=
  match c with
  | [] => None
  | t :: r => if cond t then Some (t, r) else filter_next cond r
  end.

(** [LimitOperator]: the child and [current_count_]. *)
Record limit_state := mkLimit { lim_child : list (list V); current_count : Z }.

(** [while (current_count_ < offset_ && child_->next(tuple)) current_count_++;] *)
Fixpoint limit_skip (offset cur : Z) (c : list (list V)) : list (list V) :=
  match c with
  | [] => []
  | _ :: r => if cur <? offset then limit_skip offset (cur + 1) r else c
  end.

(** [LimitOperator::open] (after [child_->open()]): [current_count_] is
    the value the operator holds when [open] is called. *)
Definition limit_open (offset : Z) (st : limit_state) : limit_state :=
  mkLimit (limit_skip offset (current_count st) (lim_child st)) 0.

(** [LimitOperator::next]. *)
Definition limit_next (limit : Z) (st : limit_state) : option (list V * limit_state) :=
  if limit <=? current_count st then None
  else
    match child_next (lim_child st) with
    | None => None
    | Some (t, r) => Some (t, mkLimit r (current_count st + 1))
    end.

(** [HashJoinOperator::open]'s build phase:
    [hash_table_.emplace(key.to_string(), right_tuple)] for the right
    child's tuples, in order. *)
Definition build_table (right_key : list V -> V) (right : list (list V)) : list (string * list V) :=
  map (fun r => (value_to_string (right_key r), r)) right.

(** [HashJoinOperator]: the left child, [left_tuple_] and the part of
    [match_iter_] not yet returned. *)
Record join_state := mkJoin {
  left_rest : list (list V);
  left_tuple : option (list V);
  match_rest : option (list (list V))
}.

Section HashJoin.
(** [hash_table_.equal_range(k)] of [std::unordered_multimap]: the tuples
    stored under [k]; the order among them is the container's. *)
Variable equal_range : list (string * list V) -> string -> list (list V).
Variable h : list (string * list V).
Variable left_key : list V -> V.

(** The part of [HashJoinOperator::next] that pulls left tuples until one
    has a match, and returns its first match (the [continue] goes back to
    the top of the loop, which returns [left ++ first match]). *)
Fixpoint join_pull (left : list (list V)) : option (list V * join_state) :=
  match left with
  | [] => None
  | l :: r =>
    match equal_range h (value_to_string (left_key l)) with
    | [] => join_pull r
    | m :: ms => Some (l ++ m, mkJoin r (Some l) (Some ms))
    end
  end.

(** [HashJoinOperator::next]. *)
Definition join_next (st : join_state) : option (list V * join_state) :=
  match match_rest st, left_tuple st with
  | Some (m :: ms), Some l => Some (l ++ m, mkJoin (left_rest st) (Some l) (Some ms))
  | _, _ => join_pull (left_rest st)
  end.

End HashJoin.

End Operators.

Section SortOp.
Context {V : Type}.
(** [common::Value::operator<]. *)
Variable value_lt : V -> V -> bool.





End SortOp.

Section OperatorProofs.
Context {V : Type} `{ValueOps V}.

Lemma run_next_same {St : Type} (next : St -> option (list V * St)) (fuel : nat) (a b : St) :
  next a = next b -> run_next next fuel a = run_next next fuel b.
Proof. intro E. destruct fuel; simpl; [reflexivity | rewrite E; reflexivity]. Qed.


Lemma run_filter (cond : list V -> bool) (input : list (list V)) (fuel : nat) :
  (List.length input < fuel)%nat ->
  run_next (filter_next cond) fuel input = Some (filter cond input).
Proof.
  revert fuel; induction input as [| t r IH]; intros fuel Hf.
  - destruct fuel; [lia | reflexivity].
  - simpl filter. destruct (cond t) eqn:Ec.
    + destruct fuel as [| f]; [lia |]. simpl. rewrite Ec. rewrite IH by (simpl in Hf; lia).
      reflexivity.
    + rewrite (run_next_same _ _ _ r) by (simpl; rewrite Ec; reflexivity).
      apply IH. simpl in Hf. lia.
Qed.

Lemma limit_skip_skipn (offset cur : Z) (c : list (list V)) :
  limit_skip offset cur c = skipn (Z.to_nat (offset - cur)) c.
Proof.
  revert cur; induction c as [| t r IH]; intro cur; simpl.
  - destruct (Z.to_nat (offset - cur)); reflexivity.
  - destruct (Z.ltb_spec cur offset) as [Hlt | Hge].
    + rewrite IH. replace (Z.to_nat (offset - cur)) with (S (Z.to_nat (offset - (cur + 1)))) by lia.
      reflexivity.
    + replace (Z.to_nat (offset - cur)) with O by lia. reflexivity.
Qed.

Lemma run_limit (limit : Z) (c : list (list V)) (cnt : Z) (fuel : nat) :
  (List.length c < fuel)%nat ->
  run_next (limit_next limit) fuel (mkLimit c cnt) = Some (firstn (Z.to_nat (limit - cnt)) c).
Proof.
  revert cnt fuel; induction c as [| t r IH]; intros cnt [| f] Hf; simpl in Hf; try lia.
  - simpl. unfold limit_next. simpl.
    destruct (limit <=? cnt); destruct (Z.to_nat (limit - cnt)); reflexivity.
  - simpl. unfold limit_next at 1. simpl.
    destruct (Z.leb_spec limit cnt) as [Hle | Hgt].
    + replace (Z.to_nat (limit - cnt)) with O by lia. reflexivity.
    + rewrite IH by lia. replace (Z.to_nat (limit - cnt)) with (S (Z.to_nat (limit - (cnt + 1)))) by lia.
      reflexivity.
Qed.

Lemma perm_flat_map {A B : Type} (f g : A -> list B) (l : list A) :
  (forall x, Permutation (f x) (g x)) -> Permutation (flat_map f l) (flat_map g l).
Proof.
  intro Hfg. induction l as [| x l IH]; simpl; [constructor |].
  apply Permutation_app; [apply Hfg | exact IH].
Qed.

Lemma build_table_lookup (right_key : list V -> V) (right : list (list V)) (k : string) :
  map snd (filter (fun kv => String.eqb (fst kv) k) (build_table right_key right))
  = filter (fun r => String.eqb (value_to_string (right_key r)) k) right.
Proof.
  induction right as [| r rs IH]; simpl; [reflexivity |].
  destruct (String.eqb (value_to_string (right_key r)) k); simpl; rewrite IH; reflexivity.
Qed.

Section JoinRun.
Variable equal_range : list (string * list V) -> string -> list (list V).
Variable h : list (string * list V).
Variable left_key : list V -> V.

Let F (l : list V) : list (list V) :=
  map (fun m => l ++ m) (equal_range h (value_to_string (left_key l))).

Lemma run_join_pull (left : list (list V)) (fuel : nat) :
  (List.length (flat_map F left) < fuel)%nat ->
  run_next (join_next equal_range h left_key) fuel (mkJoin left None None) = Some (flat_map F left).
Proof.
  revert fuel; induction left as [| l r IH]; intros fuel Hf.
  - destruct fuel; [simpl in Hf; lia | reflexivity].
  - assert (EF : F l = map (fun m => l ++ m) (equal_range h (value_to_string (left_key l))))
      by reflexivity.
    simpl flat_map in *. rewrite EF in *.
    destruct (equal_range h (value_to_string (left_key l))) as [| m ms] eqn:Er.
    + simpl in Hf |- *.
      rewrite (run_next_same _ _ _ (mkJoin r None None))
        by (unfold join_next; simpl; rewrite Er; reflexivity).
      apply IH. exact Hf.
    + destruct fuel as [| f]; [lia |].
      simpl run_next. unfold join_next at 1. simpl. rewrite Er.
      assert (Hms : forall ms' f', (List.length (map (fun m0 => l ++ m0) ms' ++ flat_map F r) < f')%nat ->
                run_next (join_next equal_range h left_key) f' (mkJoin r (Some l) (Some ms'))
                = Some (map (fun m0 => l ++ m0) ms' ++ flat_map F r)).
      { induction ms' as [| m' ms' IHms]; intros f' Hf'.
        - simpl. rewrite (run_next_same _ _ _ (mkJoin r None None)) by reflexivity.
          apply IH. exact Hf'.
        - destruct f' as [| f'']; [simpl in Hf'; lia |].
          simpl run_next. unfold join_next at 1. simpl.
          rewrite IHms by (simpl in Hf'; lia). reflexivity. }
      rewrite Hms by (simpl in Hf; lia). reflexivity.
Qed.

End JoinRun.

Section SortProofs.
Variable value_lt : V -> V -> bool.
Hypothesis value_lt_asym : forall x y, value_lt x y = true -> value_lt y x = false.






End SortProofs.

End OperatorProofs.

(** ** Further properties of the heap table and the operators *)

Section HeapExtras.
Context {V : Type} `{ValueOps V} `{PageLayout}.

(** X1.  After [remove] returns true, [get] on the removed id returns
    false: its slot entry is the tombstone 0. *)
Theorem get_after_remove (sch : schema) (s : store) (tid : tuple_id) (s' : store) :
  remove s tid = (true, s') -> get sch s' tid = Ret None.
Proof.
  intro Hrem. apply get_none_of_tombstone. exact (remove_tombstone_core s tid s' Hrem).
Qed.

(** X2.  In a table file built by [create], [insert] and [remove], when
    [tuple_count] returns [n], after one more [insert] it returns [n + 1]
    (with one more page to look at). *)
Theorem tuple_count_after_insert (s : store) (fuel fuel' : nat) (t : list V) (tid : tuple_id)
    (s' : store) (n : Z) :
  reachable s -> Z.of_nat (List.length (serialize t)) + 1 < 65536 ->
  insert fuel' s t = Some (tid, s') -> tuple_count fuel s = Some n ->
  tuple_count (S fuel) s' = Some (n + 1).
Proof. exact (count_insert_core s fuel fuel' t tid s' n). Qed.



(** X5.  [insert] is first fit and append only: the tuple goes to the
    lowest-numbered page whose header check passes (every lower page fails
    it), as the next slot of that page (slot [num_slots], so a tombstoned
    slot is never reused), and no other page changes. *)
Theorem insert_first_fit (s : store) (fuel : nat) (t : list V) (tid : tuple_id) (s' : store) :
  insert fuel s t = Some (tid, s') ->
  0 <= page_num tid
  /\ (forall q, 0 <= q < page_num tid -> fits (norm_page (s q)) (serialize t) = false)
  /\ fits (norm_page (s (page_num tid))) (serialize t) = true
  /\ slot_num tid = num_slots (norm_page (s (page_num tid)))
  /\ (forall q, q <> page_num tid -> s' q = s q).
Proof.
  intro Hins. unfold insert in Hins.
  pose proof (insert_loop_skips _ _ _ _ _ _ Hins) as Hskip.
  apply insert_loop_spec in Hins as [HP [Hslot [Hfit ->]]].
  split; [exact HP |]. split; [exact Hskip |]. split; [exact Hfit |].
  split; [exact Hslot |]. intros q Hq. apply write_page_other. exact Hq.
Qed.


(** X7.  [insert] never changes the slot entry of a tuple already in the
    table (in a table file built by [create], [insert] and [remove]). *)
Theorem insert_keeps_existing_slots (s : store) (fuel : nat) (t : list V) (tid tid' : tuple_id)
    (s' : store) :
  reachable s -> Z.of_nat (List.length (serialize t)) + 1 < 65536 ->
  insert fuel s t = Some (tid, s') ->
  0 <= slot_num tid' < num_slots (s (page_num tid')) ->
  slot_offset s' tid' = slot_offset s tid'.
Proof. exact (insert_keeps_slot_entries s fuel t tid tid' s'). Qed.


End HeapExtras.

Section OperatorExtras.
Context {V : Type} `{ValueOps V}.

(** X9.  Draining a FilterOperator returns exactly the child's tuples
    whose condition is true, in the child's order, and then false. *)
Theorem filter_operator_output (cond : list V -> bool) (input : list (list V)) :
  run_next (filter_next cond) (S (List.length input)) input = Some (filter cond input).
Proof. apply run_filter. lia. Qed.

(** X10.  Opening a LimitOperator whose [current_count_] is [c0] and
    draining it returns the child's tuples after the first [offset - c0],
    at most [limit] of them: for a new operator ([c0 = 0]) rows
    [offset + 1 .. offset + limit]. *)
Theorem limit_operator_output (limit offset c0 : Z) (input : list (list V)) :
  run_next (limit_next limit) (S (List.length input)) (limit_open offset (mkLimit input c0))
  = Some (firstn (Z.to_nat limit) (skipn (Z.to_nat (offset - c0)) input)).
Proof.
  unfold limit_open. cbn [lim_child current_count].
  rewrite limit_skip_skipn, run_limit by (rewrite length_skipn; lia).
  rewrite Z.sub_0_r. reflexivity.
Qed.


(** X12.  A HashJoinOperator emits, for each left tuple in the left
    child's order, the left tuple followed by each right tuple stored under
    the same key text ([to_string] of the key values, so values of
    different types with equal text join); as a multiset this is the
    nested-loop equi-join on the keys' text forms. *)
Theorem hash_join_output
    (equal_range : list (string * list V) -> string -> list (list V))
    (equal_range_perm : forall h k, Permutation (equal_range h k)
                                     (map snd (filter (fun kv => String.eqb (fst kv) k) h)))
    (left_key right_key : list V -> V) (left right : list (list V)) :
  let h := build_table right_key right in
  let out := flat_map (fun l => map (fun m => l ++ m)
                                  (equal_range h (value_to_string (left_key l)))) left in
  run_next (join_next equal_range h left_key) (S (List.length out)) (mkJoin left None None)
  = Some out
  /\ Permutation out
       (flat_map (fun l => map (fun r => l ++ r)
                     (filter (fun r => String.eqb (value_to_string (right_key r))
                                                  (value_to_string (left_key l))) right)) left).
Proof.
  cbv zeta. split.
  - apply run_join_pull. lia.
  - apply perm_flat_map. intro l. apply Permutation_map.
    rewrite <- build_table_lookup. apply equal_range_perm.
Qed.

End OperatorExtras.

Section AggregateOrder.
Context {V : Type} `{ValueOps V}.

Lemma sorted_map_keys {A : Type} (m : list (string * A)) :
  Sorted StrMapFacts.key_lt m -> Sorted String_as_OT.lt (map fst m).
Proof.
  induction m as [| kv m IH]; intro Hs; simpl; constructor.
  - apply IH. inversion Hs; assumption.
  - inversion Hs as [| ? ? _ Hhd]; subst. destruct m as [| kv' m']; simpl; constructor.
    inversion Hhd; assumption.
Qed.

(** The GROUP BY values an entry keeps: those of the group's first tuple
    when there are aggregates ([counts] is then non-empty after the first
    tuple), those of its last tuple when there are none ([counts] stays
    empty, so every tuple resets them). *)
Definition group_rep (aggs : list (@AggregateInfo V)) (grp : list (list V)) : list V :=
  match aggs with [] => last grp [] | _ => hd [] grp end.

Lemma group_values_of_group (group_by : list (@group_expr V)) (aggs : list AggregateInfo)
    (grp : list (list V)) (st : GroupState) :
  grp <> [] ->
  fold_left (fun o tup => Some (entry_step group_by aggs tup o)) grp None = Some st ->
  group_values st = map (fun e => e (group_rep aggs grp)) group_by.
Proof.
  revert st. induction grp as [| tup l IH] using rev_ind; intros st Hne Hf; [congruence |].
  rewrite fold_left_app in Hf. simpl in Hf. injection Hf as <-.
  destruct l as [| t0 l'] eqn:El.
  - simpl. unfold group_rep. destruct aggs; reflexivity.
  - rewrite <- El in *.
    destruct (entry_of_group group_by aggs l) as [st0 [Hf0 [Hc0 _]]].
    { rewrite El. discriminate. }
    rewrite Hf0. unfold entry_step. rewrite Hc0.
    unfold group_rep. destruct aggs as [| a aggs'] eqn:Ea.
    + simpl. rewrite last_last. reflexivity.
    + simpl. rewrite (IH st0); [| rewrite El; discriminate | exact Hf0].
      unfold group_rep. rewrite El. reflexivity.
Qed.

End AggregateOrder.

Section AggregateExtras.
Context {V : Type} `{ValueOps V}.

(** X13.  AggregateOperator emits its rows in ascending order of the
    serialized GROUP BY key (the order of the [std::map]).  The row of key
    [k] holds the GROUP BY values of the group's first tuple when there are
    aggregates, but of its last tuple when there are none, followed by the
    aggregate results over the group. *)
Theorem aggregate_rows_in_key_order
    (group_by : list group_expr) (aggs : list AggregateInfo) (input : list (list V)) :
  exists ks : list string,
    Sorted String_as_OT.lt ks
    /\ (forall k, In k ks <-> exists tup, In tup input /\ group_key group_by tup = k)
    /\ Forall2 (fun k row =>
          row = map (fun e => e (group_rep aggs (group_of group_by input k))) group_by
                ++ map (fun a => agg_value a (group_of group_by input k)) aggs)
        ks (aggregate group_by aggs input).
Proof.
  set (D := drain group_by aggs input).
  assert (Hsorted : Sorted StrMapFacts.key_lt D).
  { apply sorted_drain_from. constructor. }
  assert (Hnd : NoDup (map fst D)) by (apply StrMapFacts.sorted_nodup_keys; exact Hsorted).
  assert (Hkeys : forall k, In k (map fst D) <-> exists tup, In tup input /\ group_key group_by tup = k).
  { intro k. unfold D, drain. rewrite keys_drain_from. simpl. tauto. }
  exists (map fst D). split; [apply sorted_map_keys; exact Hsorted |]. split; [exact Hkeys |].
  unfold aggregate. fold D. apply forall2_rows. intros k st Hin.
  assert (Hfind : StrMap.find k D = Some st) by (apply StrMapFacts.find_in; assumption).
  unfold D, drain in Hfind. rewrite find_drain_from in Hfind. simpl in Hfind.
  fold (group_of group_by input k) in Hfind.
  assert (Hne : group_of group_by input k <> []).
  { assert (Hk : In k (map fst D)) by (apply in_map_iff; exists (k, st); auto).
    apply Hkeys in Hk as [tup [Hin' Hk]].
    intro Hnil. assert (Hg : In tup (group_of group_by input k)).
    { apply filter_In. split; [exact Hin' | apply String.eqb_eq; exact Hk]. }
    rewrite Hnil in Hg. exact Hg. }
  destruct (entry_of_group group_by aggs (group_of group_by input k) Hne) as
      [st' [Hf [Hc [Hs _]]]].
  pose proof (group_values_of_group group_by aggs _ st' Hne Hf) as Hg.
  rewrite Hf in Hfind. inversion Hfind; subst st'.
  unfold finish_row. rewrite Hg, Hc, Hs, (agg_results_value group_by). reflexivity.
Qed.

End AggregateExtras.

(** ** Concrete runs of the further properties on the [Val] instance *)

(** The table after a successful [insert] ([s] unchanged if it fails). *)
Definition after_insert (fuel : nat) (s : store) (t : list Val.value) : store :=
  match insert fuel s t with Some (_, s') => s' | None => s end.

(** A fresh table holding (7) at (0,0); then (8) added at (0,1); then
    (0,0) removed from each. *)
Definition ex_one : store := after_insert 1 (create empty_store) [Val.VInt64 7].
Definition ex_two : store := after_insert 1 ex_one [Val.VInt64 8].
Definition ex_one_removed : store := snd (remove ex_one (mkTid 0 0)).


Lemma ex_one_reachable : reachable (V := Val.value) ex_one.
Proof.
  apply (reach_insert (create empty_store) 1 [Val.VInt64 7] (mkTid 0 0)).
  - apply reach_create, reach_empty.
  - vm_compute. reflexivity.
  - vm_compute. reflexivity.
Qed.




(** [unordered_multimap::equal_range] that returns the stored tuples in
    insertion order. *)
Definition equal_range_in_order (h : list (string * list Val.value)) (k : string)
  : list (list Val.value) :=
  map snd (filter (fun kv => String.eqb (fst kv) k) h).

(** A witness for X1: (7) reads back before, and not after, its removal. *)
Lemma get_after_remove_witness :
  get [TYPE_INT64] ex_one (mkTid 0 0) = Ret (Some [Val.VInt64 7])
  /\ remove ex_one (mkTid 0 0) = (true, ex_one_removed)
  /\ get (V := Val.value) [TYPE_INT64] ex_one_removed (mkTid 0 0) = Ret None.
Proof.
  split; [vm_compute; reflexivity |]. split; [vm_compute; reflexivity |].
  apply (get_after_remove [TYPE_INT64] ex_one (mkTid 0 0) ex_one_removed).
  vm_compute. reflexivity.
Defined.

(** A witness for X2: one tuple, then a second insert; the count goes
    from 1 to 2. *)
Lemma tuple_count_after_insert_witness :
  tuple_count 2 ex_one = Some 1
  /\ insert 1 ex_one [Val.VInt64 8] = Some (mkTid 0 1, ex_two)
  /\ tuple_count 3 ex_two = Some 2.
Proof.
  split; [vm_compute; reflexivity |]. split; [vm_compute; reflexivity |].
  apply (tuple_count_after_insert ex_one 2 1 [Val.VInt64 8] (mkTid 0 1) ex_two 1).
  - exact ex_one_reachable.
  - vm_compute. reflexivity.
  - vm_compute. reflexivity.
  - vm_compute. reflexivity.
Defined.



(** A witness for X5: the second tuple goes to page 0, slot 1. *)
Lemma insert_first_fit_witness :
  insert 1 ex_one [Val.VInt64 8] = Some (mkTid 0 1, ex_two)
  /\ 0 <= page_num (mkTid 0 1)
  /\ (forall q, 0 <= q < page_num (mkTid 0 1) ->
        fits (norm_page (ex_one q)) (serialize [Val.VInt64 8]) = false)
  /\ fits (norm_page (ex_one (page_num (mkTid 0 1)))) (serialize [Val.VInt64 8]) = true
  /\ slot_num (mkTid 0 1) = num_slots (norm_page (ex_one (page_num (mkTid 0 1))))
  /\ (forall q, q <> page_num (mkTid 0 1) -> ex_two q = ex_one q).
Proof.
  assert (E : insert 1 ex_one [Val.VInt64 8] = Some (mkTid 0 1, ex_two))
    by (vm_compute; reflexivity).
  split; [exact E |]. exact (insert_first_fit ex_one 1 [Val.VInt64 8] (mkTid 0 1) ex_two E).
Defined.


(** A witness for X7: the entry of (0,0) survives the second insert. *)
Lemma insert_keeps_existing_slots_witness :
  slot_offset ex_two (mkTid 0 0) = slot_offset ex_one (mkTid 0 0).
Proof.
  apply (insert_keeps_existing_slots ex_one 1 [Val.VInt64 8] (mkTid 0 1) (mkTid 0 0) ex_two).
  - exact ex_one_reachable.
  - vm_compute. reflexivity.
  - vm_compute. reflexivity.
  - assert (E : num_slots (ex_one 0) = 1) by (vm_compute; reflexivity).
    cbn [slot_num page_num]. rewrite E. lia.
Defined.



(** A witness for X12: left keys 1, 2 and the text '1'; right keys 1, 1
    and 3.  Both left 1 and left '1' match both right tuples of key 1. *)
Lemma hash_join_output_witness :
  let left := [[Val.VInt64 1]; [Val.VInt64 2]; [Val.VText "1"]] in
  let right := [[Val.VInt64 1; Val.VText "a"]; [Val.VInt64 3; Val.VText "b"];
                [Val.VInt64 1; Val.VText "c"]] in
  let key := fun t : list Val.value => nth 0 t Val.VNull in
  run_next (join_next equal_range_in_order (build_table key right) key) 8 (mkJoin left None None)
  = Some [[Val.VInt64 1; Val.VInt64 1; Val.VText "a"]; [Val.VInt64 1; Val.VInt64 1; Val.VText "c"];
          [Val.VText "1"; Val.VInt64 1; Val.VText "a"]; [Val.VText "1"; Val.VInt64 1; Val.VText "c"]]
  /\ (let h := build_table key right in
      let out := flat_map (fun l => map (fun m => l ++ m)
                                      (equal_range_in_order h (value_to_string (key l)))) left in
      run_next (join_next equal_range_in_order h key) (S (List.length out)) (mkJoin left None None)
      = Some out
      /\ Permutation out
           (flat_map (fun l => map (fun r => l ++ r)
                         (filter (fun r => String.eqb (value_to_string (key r))
                                                      (value_to_string (key l))) right)) left)).
Proof.
  cbv zeta. split; [vm_compute; reflexivity |].
  apply (hash_join_output equal_range_in_order (fun h k => Permutation_refl _)).
Defined.
